(** * Tester.py: the SAT engines of the 3-SAT benchmarker

    A shallow embedding of [src/3-SAT Benchmarker/Tester.py]: the
    literal-simplification primitive, the three native engines
    ([brute_force_solver], [dp_solver], [dpll_solver]), the CDCL
    collaborator, the process-isolating executor, [main] and the DIMACS
    parser [parse_cnf_file], followed by the
    properties of the specification that were checked against them.

    Python integers are unbounded, so a literal is a [Z]; a clause is a
    Python list of literals ([list Z]) and a formula a list of clauses.
    Python sets and frozensets are stdpp's [gset].  Exceptions are values
    of [result]; a recursion or a loop of the source is a [Fixpoint] on a
    fuel that is then shown to be sufficient.  The limits of the
    interpreter itself (recursion depth, memory) are not represented. *)

From Stdlib Require Import ZArith Bool Lia Ascii String.
From stdpp Require Import base decidable option list sets gmap strings.

Local Open Scope Z_scope.

(** ** Data model *)

Abbreviation Literal := Z (only parsing).
Abbreviation Clause := (list Z) (only parsing).
Abbreviation Formula := (list (list Z)) (only parsing).

(** The Python exceptions that the modelled code can raise. *)
Inductive exn : Type :=
  | ValueError      (* max() of an empty sequence, negative shift count *)
  | IndexError      (* list index out of range *)
  | TimeoutError    (* raised by dp_solver on its budgets *)
  | SystemExit (code : Z).  (* sys.exit(code); not a subclass of Exception *)

(** The outcome of evaluating a Python expression: a value or an exception. *)
Inductive result (A : Type) : Type :=
  | Ret (a : A)
  | Raise (e : exn).
Arguments Ret {A} a.
Arguments Raise {A} e.

(** Sequencing: an exception raised by the first computation propagates. *)
#[global] Instance result_bind : MBind result := λ A B k r,
  match r with
  | Ret a => k a
  | Raise e => Raise e
  end.

(** The variables (magnitudes of literals) that occur in a formula. *)
Definition variables (formula : Formula) : gset Z :=
  list_to_set (Z.abs <$> mjoin formula).

(** ** The simplification primitive (Tester.py, lines 114-122)

<<
    def simplify(frm, lit):
        out = []
        for c in frm:
            if lit in c:
                continue
            if -lit in c:
                c = [l for l in c if l != -lit]
            out.append(c)
        return out
>>
    [simplify_iter] is one iteration of the [for] loop, acting on the
    accumulator [out]. *)

Definition simplify_iter (lit : Z) (out : Formula) (c : Clause) : Formula :=
  if bool_decide (lit ∈ c) then out
  else
    let c' := if bool_decide (- lit ∈ c)
              then filter (λ l, l ≠ - lit) c
              else c in
    out ++ [c'].

Definition simplify (frm : Formula) (lit : Z) : Formula :=
  fold_left (simplify_iter lit) frm [].

(** What the specification says [simplify] does to one clause: [None] when
    the clause is dropped, otherwise the clause that is kept. *)
Definition clause_image (lit : Z) (c : Clause) : option Clause :=
  if decide (lit ∈ c) then None
  else if decide (- lit ∈ c) then Some (filter (λ l, l ≠ - lit) c)
  else Some c.

(** The specification's [simplify]: every clause is replaced by its image,
    dropped clauses vanish, and the order of the others is kept. *)
Definition simplify_spec (frm : Formula) (lit : Z) : Formula :=
  omap (clause_image lit) frm.

(** ** brute_force_solver (Tester.py, lines 66-75)

<<
    def brute_force_solver(formula):
        n = max(abs(l) for c in formula for l in c)
        for mask in range(1 << n):
            if all(
                any((lit > 0) == bool((mask >> (abs(lit)-1)) & 1) for lit in clause)
                for clause in formula
            ):
                return True
        return False
>>
    [max] raises [ValueError] on an empty sequence, and [>>] raises
    [ValueError] on a negative shift count (which only a literal [0] can
    produce).  [any] and [all] consume their generators lazily, so an
    exception is raised only when the evaluation reaches it. *)

(** [max(abs(l) for c in formula for l in c)] *)
Definition max_abs (formula : Formula) : result Z :=
  match Z.abs <$> mjoin formula with
  | [] => Raise ValueError
  | a :: rest => Ret (fold_left Z.max rest a)
  end.

(** [(lit > 0) == bool((mask >> (abs(lit)-1)) & 1)] *)
Definition lit_holds (mask lit : Z) : result bool :=
  if bool_decide (Z.abs lit - 1 < 0) then Raise ValueError
  else Ret (eqb (bool_decide (lit > 0))
                (bool_decide (Z.land (mask ≫ (Z.abs lit - 1)) 1 ≠ 0))).

(** [any(... for lit in clause)] *)
Fixpoint any_lit (mask : Z) (clause : Clause) : result bool :=
  match clause with
  | [] => Ret false
  | lit :: clause' =>
      b ← lit_holds mask lit;
      if (b : bool) then Ret true else any_lit mask clause'
  end.

(** [all(any(...) for clause in formula)] *)
Fixpoint all_clauses (mask : Z) (formula : Formula) : result bool :=
  match formula with
  | [] => Ret true
  | clause :: formula' =>
      b ← any_lit mask clause;
      if (b : bool) then all_clauses mask formula' else Ret false
  end.

(** The [for mask in ...] loop with its early [return True]. *)
Fixpoint search_masks (formula : Formula) (masks : list Z) : result bool :=
  match masks with
  | [] => Ret false
  | mask :: masks' =>
      b ← all_clauses mask formula;
      if (b : bool) then Ret true else search_masks formula masks'
  end.

Definition brute_force_solver (formula : Formula) : result bool :=
  n ← max_abs formula;
  search_masks formula (seqZ 0 (1 ≪ n)).

(** ** Configuration (Tester.py, lines 25-27) *)

Definition TIMEOUT_PER_SOLVER : Z := 30.
Definition MAX_DP_STEPS : Z := 100000.
Definition BF_THRESHOLD : Z := 20.

(** ** dp_solver (Tester.py, lines 77-110)

<<
    def dp_solver(formula):
        start = time.time()
        def resolve(fm, seen, steps):
            if time.time() - start > TIMEOUT_PER_SOLVER:
                raise TimeoutError("Timp depășit pentru DP")
            steps[0] += 1
            if steps[0] > MAX_DP_STEPS:
                raise TimeoutError("Limită de pași depășită pentru DP")
            sig = frozenset(frozenset(c) for c in fm)
            if sig in seen:
                return False
            seen.add(sig)
            if not fm:
                return True
            if any(len(c) == 0 for c in fm):
                return False
            x = abs(fm[0][0])
            pos = [c for c in fm if x in c]
            neg = [c for c in fm if -x in c]
            rest = [c for c in fm if x not in c and -x not in c]
            new = []
            for p in pos:
                for q in neg:
                    rc = [l for l in p if abs(l)!=x] + [l for l in q if abs(l)!=x]
                    S = set(rc)
                    if any(-lit in S for lit in S):
                        continue
                    new.append(list(dict.fromkeys(rc)))
            return resolve(rest + new, seen, steps)
        return resolve(formula, seen=set(), steps=[0])
>>
    The set [seen] and the counter [steps] are shared mutable objects; the
    model threads them through the call and returns their final values.
    The wall clock is an oracle [expired]: [expired k] tells whether the
    test [time.time() - start > TIMEOUT_PER_SOLVER] succeeds in the call
    that finds the counter at [k]. *)

(** [frozenset(frozenset(c) for c in fm)] *)
Definition signature (fm : Formula) : gset (gset Z) :=
  list_to_set ((λ c : Clause, list_to_set c) <$> fm).

(** [list(dict.fromkeys(rc))]: keys are inserted one by one; a key already
    present keeps its position. *)
Definition fromkeys (rc : list Z) : list Z :=
  fold_left (λ d l, if bool_decide (l ∈ d) then d else d ++ [l]) rc [].

(** [S = set(rc)] followed by [any(-lit in S for lit in S)] *)
Definition has_complement (rc : list Z) : bool :=
  let S : gset Z := list_to_set rc in
  existsb (λ lit, bool_decide (- lit ∈ S)) (elements S).

(** The body of [for q in neg], acting on the accumulator [new]. *)
Definition resolve_pair (x : Z) (p : Clause) (new : Formula) (q : Clause)
  : Formula :=
  let rc := filter (λ l, Z.abs l ≠ x) p ++ filter (λ l, Z.abs l ≠ x) q in
  if has_complement rc then new else new ++ [fromkeys rc].

(** The two nested loops that fill [new]. *)
Definition resolvents (x : Z) (pos neg : Formula) : Formula :=
  fold_left (λ new p, fold_left (resolve_pair x p) neg new) pos [].

(** Lines 98-108 and the argument [rest + new] of the recursive call. *)
Definition next_formula (x : Z) (fm : Formula) : Formula :=
  let pos := filter (λ c, x ∈ c) fm in
  let neg := filter (λ c, - x ∈ c) fm in
  let rest := filter (λ c, (x ∉ c) ∧ (- x ∉ c)) fm in
  let new := resolvents x pos neg in
  rest ++ new.

(** The statement at which a call of [resolve] stops. *)
Inductive dp_exit : Type :=
  | ExitClock          (* line 85: raise TimeoutError *)
  | ExitSteps          (* line 88: raise TimeoutError *)
  | ExitSeen           (* line 91: return False, the cycle guard *)
  | ExitEmptyFormula   (* line 94: return True *)
  | ExitEmptyClause    (* line 96: return False *)
  | ExitIndex.         (* line 97: fm[0][0] out of range *)

(** What the caller observes of each exit. *)
Definition dp_outcome (e : dp_exit) : result bool :=
  match e with
  | ExitClock | ExitSteps => Raise TimeoutError
  | ExitSeen | ExitEmptyClause => Ret false
  | ExitEmptyFormula => Ret true
  | ExitIndex => Raise IndexError
  end.

(** The final state of a run of [resolve]: the exit taken and the shared
    objects [seen] and [steps[0]] as the run leaves them. *)
Record dp_run : Type := DpRun {
  run_exit : dp_exit;
  run_seen : gset (gset (gset Z));
  run_steps : Z
}.

Section DavisPutnam.
Variable expired : Z → bool.

(** [resolve] calls itself in tail position, so its result is that of the
    last call.  [fuel] bounds the number of calls; [None] means the bound
    was reached. *)
Fixpoint resolve (fuel : nat) (fm : Formula)
    (seen : gset (gset (gset Z))) (steps : Z) : option dp_run :=
  match fuel with
  | O => None
  | S fuel' =>
      if expired steps then Some (DpRun ExitClock seen steps)
      else
        let steps := steps + 1 in
        if bool_decide (steps > MAX_DP_STEPS)
        then Some (DpRun ExitSteps seen steps)
        else
          let sig := signature fm in
          if bool_decide (sig ∈ seen) then Some (DpRun ExitSeen seen steps)
          else
            let seen := {[sig]} ∪ seen in
            if bool_decide (fm = [])
            then Some (DpRun ExitEmptyFormula seen steps)
            else if existsb (λ c, bool_decide (length c = 0%nat)) fm
            then Some (DpRun ExitEmptyClause seen steps)
            else
              match fm with
              | (l0 :: _) :: _ =>
                  let x := Z.abs l0 in
                  resolve fuel' (next_formula x fm) seen steps
              | _ => Some (DpRun ExitIndex seen steps)
              end
  end.

(** The step budget itself bounds the number of calls: the call that
    finds the counter at [MAX_DP_STEPS] raises. *)
Definition dp_fuel : nat := S (Z.to_nat MAX_DP_STEPS).

Definition dp_solver_run (formula : Formula) : option dp_run :=
  resolve dp_fuel formula ∅ 0.

Definition dp_solver (formula : Formula) : option (result bool) :=
  (λ r, dp_outcome (run_exit r)) <$> dp_solver_run formula.
End DavisPutnam.

(** The clock of a run that is never out of time. *)
Definition in_time : Z → bool := λ _, false.

(** ** dpll_solver (Tester.py, lines 112-140)

<<
    def dpll_solver(formula):
        def simplify(frm, lit): ...
        while True:
            units = [c[0] for c in formula if len(c) == 1]
            if not units:
                break
            for u in units:
                formula = simplify(formula, u)
        lits = [l for c in formula for l in c]
        pures = [v for v in set(abs(l) for l in lits) if (v in lits) ^ (-v in lits)]
        for v in pures:
            lit = v if v in lits else -v
            formula = simplify(formula, lit)
        if not formula:
            return True
        if any(len(c) == 0 for c in formula):
            return False
        lit = formula[0][0]
        return (dpll_solver(simplify(formula, lit)) or
                dpll_solver(simplify(formula, -lit)))
>>
*)

(** [[c[0] for c in formula if len(c) == 1]] *)
Definition unit_literals (formula : Formula) : list Z :=
  (λ c, default 0 (head c)) <$> filter (λ c, length c = 1%nat) formula.

(** [for u in units: formula = simplify(formula, u)] *)
Definition propagate_units (units : list Z) (formula : Formula) : Formula :=
  fold_left simplify units formula.

(** The [while True] loop; [fuel] bounds the number of passes and [None]
    means that the bound was reached. *)
Fixpoint unit_loop (fuel : nat) (formula : Formula) : option Formula :=
  match fuel with
  | O => None
  | S fuel' =>
      let units := unit_literals formula in
      if bool_decide (units = []) then Some formula
      else unit_loop fuel' (propagate_units units formula)
  end.

(** [[v for v in set(abs(l) for l in lits) if (v in lits) ^ (-v in lits)]].
    The order in which Python iterates over a set is unspecified; the model
    takes the order of [elements], which is as arbitrary; the loop that
    uses the list is shown below to give the same formula in any order. *)
Definition pure_variables (lits : list Z) : list Z :=
  filter (λ v, xorb (bool_decide (v ∈ lits)) (bool_decide (- v ∈ lits)))
         (elements (list_to_set (Z.abs <$> lits) : gset Z)).

(** The body of [for v in pures]. *)
Definition eliminate_pure (lits : list Z) (formula : Formula) (v : Z) : Formula :=
  let lit := if bool_decide (v ∈ lits) then v else - v in
  simplify formula lit.

(** The loop [for v in pures] run over the variables [vs] in that order. *)
Definition eliminate_in_order (lits : list Z) (vs : list Z) (formula : Formula)
  : Formula :=
  fold_left (eliminate_pure lits) vs formula.

(** Lines 129-133. *)
Definition eliminate_pures (formula : Formula) : Formula :=
  let lits := mjoin formula in
  eliminate_in_order lits (pure_variables lits) formula.

(** [a or b] on calls that may raise or (in the model) run out of fuel: the
    second operand is evaluated only when the first returns [False]. *)
Definition or_else (a : option (result bool)) (b : option (result bool))
  : option (result bool) :=
  match a with
  | Some (Ret false) => b
  | other => other
  end.

(** The body of [dpll_solver]; [fuel] bounds the depth of the recursion
    (and serves the [while] loop of each call), [None] means that the
    bound was reached. *)
Fixpoint dpll (fuel : nat) (formula : Formula) : option (result bool) :=
  match fuel with
  | O => None
  | S fuel' =>
      match unit_loop fuel formula with
      | None => None
      | Some formula =>
          let formula := eliminate_pures formula in
          if bool_decide (formula = []) then Some (Ret true)
          else if existsb (λ c, bool_decide (length c = 0%nat)) formula
          then Some (Ret false)
          else
            match formula with
            | (lit :: _) :: _ =>
                or_else (dpll fuel' (simplify formula lit))
                        (dpll fuel' (simplify formula (- lit)))
            | _ => Some (Raise IndexError)
            end
      end
  end.

(** The size of a formula: one for every clause and one for every literal
    occurrence.  Every simplification that changes the formula decreases
    it, so it bounds both the passes of the [while] loop and the depth of
    the recursion. *)
Definition formula_size (formula : Formula) : nat :=
  sum_list ((λ c, S (length c)) <$> formula).

Definition dpll_solver (formula : Formula) : option (result bool) :=
  dpll (S (formula_size formula)) formula.

(** ** cdcl_solver (Tester.py, lines 142-152)

<<
    def cdcl_solver(formula):
        try:
            from pysat.solvers import Solver
        except ImportError:
            print("ERROR: Instalează python-sat[pblib,aiger]", file=sys.stderr)
            sys.exit(1)
        with Solver(name='glucose3') as s:
            for clause in formula:
                s.add_clause(clause)
            return s.solve()
>>
    The environment says whether the package can be imported; the Glucose
    engine itself is an opaque function of the formula. *)

Record environment : Type := Environment {
  pysat_installed : bool;
  glucose3 : Formula → bool
}.

Definition cdcl_solver (env : environment) (formula : Formula)
  : option (result bool) :=
  if pysat_installed env then Some (Ret (glucose3 env formula))
  else Some (Raise (SystemExit 1)).

(** ** The executor (Tester.py, lines 155-177)

<<
    def _worker(func, formula, q):
        try:
            start = time.time()
            res = func(formula)
            elapsed = time.time() - start
            mem_mb = psutil.Process(os.getpid()).memory_info().rss / (1024**2)
            q.put({'result': res, 'time': elapsed, 'memory': mem_mb})
        except TimeoutError:
            q.put({'timeout': True})
        except Exception:
            q.put({'timeout': True})

    def run_with_timeout(func, formula):
        q = Queue()
        p = Process(target=_worker, args=(func, formula, q))
        p.start()
        p.join(TIMEOUT_PER_SOLVER)
        if p.is_alive():
            p.terminate()
            p.join()
            return {'timeout': True}
        info = q.get() if not q.empty() else {'timeout': True}
        return info
>>
    The measured time and memory are floating-point readings of the
    machine and are left out of the messages.  A call of [func] is an
    [option (result bool)]: [None] is a call that does not return. *)

Inductive info : Type :=
  | InfoResult (res : bool)    (* {'result': res, 'time': _, 'memory': _} *)
  | InfoTimeout.               (* {'timeout': True} *)

(** [SystemExit] derives from [BaseException], not from [Exception]. *)
Definition is_Exception (e : exn) : bool :=
  match e with
  | SystemExit _ => false
  | _ => true
  end.

(** How the child process ends. *)
Inductive child : Type :=
  | Running                                   (* [func] has not returned *)
  | Exited (queue : list info) (status : Z).  (* the queue and exit status *)

Definition _worker (call : option (result bool)) (q : list info) : child :=
  match call with
  | None => Running
  | Some (Ret res) => Exited (q ++ [InfoResult res]) 0
  | Some (Raise TimeoutError) => Exited (q ++ [InfoTimeout]) 0
  | Some (Raise e) =>
      if is_Exception e then Exited (q ++ [InfoTimeout]) 0
      else Exited q (match e with SystemExit code => code | _ => 1 end)
  end.

(** [late] tells whether a child that does finish needs more than
    [TIMEOUT_PER_SOLVER] seconds to do so. *)
Definition run_with_timeout (late : bool) (call : option (result bool)) : info :=
  match _worker call [] with
  | Running => InfoTimeout
  | Exited q _ =>
      if late then InfoTimeout
      else match q with
           | i :: _ => i
           | [] => InfoTimeout
           end
  end.

(** ** main (Tester.py, lines 180-224)

<<
    def main():
        ...
        if os.path.isdir(args.path):
            files = sorted(...)
        elif args.path.lower().endswith('.cnf'):
            files = [args.path]
        else:
            print("Nu am găsit fișiere .cnf la", args.path, file=sys.stderr)
            sys.exit(1)
        solvers = [("Brute-Force", brute_force_solver), ("Davis–Putnam", dp_solver),
                   ("DPLL", dpll_solver), ("CDCL", cdcl_solver)]
        for path in files:
            print(f"\n=== {os.path.basename(path)} ===")
            try:
                formula, n, m = parse_cnf_file(path)
                print(f"Variabile: {n}, Clauze: {m}")
            except Exception as e:
                print(f"Eroare la parsare: {e}", file=sys.stderr)
                continue
            for name, solver in solvers:
                if name == "Brute-Force" and n > BF_THRESHOLD:
                    print(f"-- {name:12} SĂRIT (n>{BF_THRESHOLD})")
                    continue
                print(f"-- {name:12} ", end='', flush=True)
                info = run_with_timeout(solver, formula)
                if info.get('timeout'):
                    print("TIMEOUT")
                else:
                    sat = info['result']
                    print(f"{'SAT' if sat else 'UNSAT'}, ...")
        print("\n=== Benchmark finalizat ===")
>>
    The file system and the parser are outside the model: [main] receives
    what the path denotes and, for each file, what [parse_cnf_file] gave. *)

Inductive solver_name : Type := BruteForce | DavisPutnam | DPLL | CDCL.

#[global] Instance solver_name_eq_dec : EqDecision solver_name.
Proof. solve_decision. Defined.

(** What [parse_cnf_file] produced for a file: an exception, or the formula
    with the declared numbers of variables and clauses. *)
Inductive parsed : Type :=
  | ParseFailed
  | Parsed (formula : Formula) (n m : Z).

Inductive path_kind : Type :=
  | Directory (files : list parsed)
  | CnfFile (file : parsed)
  | OtherPath.

(** The lines that [main] prints. *)
Inductive line : Type :=
  | FileHeader                     (* === name === *)
  | Counts (n m : Z)               (* Variabile: n, Clauze: m *)
  | ParseErrorLine                 (* Eroare la parsare: ... *)
  | Skipped (s : solver_name)      (* -- name SĂRIT (n>20) *)
  | TimeoutLine (s : solver_name)  (* -- name TIMEOUT *)
  | Verdict (s : solver_name) (sat : bool)  (* -- name SAT / UNSAT, ... *)
  | NoFiles                        (* Nu am găsit fișiere .cnf la ... *)
  | Finished.                      (* === Benchmark finalizat === *)

Section Main.
Variable env : environment.
(** The wall clock, as seen by [dp_solver] and by [run_with_timeout]. *)
Variable expired : Z → bool.
Variable late : solver_name → Formula → bool.

Definition solver (s : solver_name) (formula : Formula)
  : option (result bool) :=
  match s with
  | BruteForce => Some (brute_force_solver formula)
  | DavisPutnam => dp_solver expired formula
  | DPLL => dpll_solver formula
  | CDCL => cdcl_solver env formula
  end.

Definition solvers : list solver_name := [BruteForce; DavisPutnam; DPLL; CDCL].

(** One iteration of [for name, solver in solvers]. *)
Definition run_solver (formula : Formula) (n : Z) (s : solver_name) : line :=
  if bool_decide (s = BruteForce) && bool_decide (n > BF_THRESHOLD)
  then Skipped s
  else
    match run_with_timeout (late s formula) (solver s formula) with
    | InfoTimeout => TimeoutLine s
    | InfoResult sat => Verdict s sat
    end.

(** One iteration of [for path in files]. *)
Definition run_file (file : parsed) : list line :=
  match file with
  | ParseFailed => [FileHeader; ParseErrorLine]
  | Parsed formula n m =>
      FileHeader :: Counts n m :: (run_solver formula n <$> solvers)
  end.

(** The printed lines and the exit status of the process. *)
Definition main (path : path_kind) : list line * Z :=
  match path with
  | OtherPath => ([NoFiles], 1)
  | Directory files => (mjoin (run_file <$> files) ++ [Finished], 0)
  | CnfFile file => (run_file file ++ [Finished], 0)
  end.
End Main.

(** ** parse_cnf_file (Tester.py, lines 30-63)

<<
    def parse_cnf_file(path):
        formula = []
        n_vars = n_clauses = None
        with open(path, 'r') as f:
            for line in f:
                line = line.strip()
                if not line or line.startswith('c'):
                    continue
                if line.startswith('%'):
                    break
                if line.startswith('p cnf'):
                    parts = line.split()
                    n_vars, n_clauses = int(parts[2]), int(parts[3])
                    continue
                if '%' in line:
                    line = line.split('%', 1)[0].strip()
                    if not line:
                        continue
                lits = []
                for tok in line.split():
                    v = int(tok)
                    if v == 0:
                        break
                    lits.append(v)
                if lits:
                    formula.append(lits)
        if n_vars is None or n_clauses is None:
            raise ValueError(f"Header 'p cnf' lipsă în {path}")
        return formula, n_vars, n_clauses
>>
    The file system is outside the model: the parser receives the lines
    that iterating over the open file yields.  A Python [str] is a list of
    characters; the characters are those below U+0100, each an [ascii].
    The builtin [int] is a parameter of the parser ([py_int] below is its
    instance for running the model). *)

Abbreviation pystr := (list ascii) (only parsing).

(** [str.isspace] of one character: the whitespace that [strip] and
    [split] recognise (U+0009-000D, U+001C-0020, U+0085, U+00A0). *)
Definition isspace (c : ascii) : bool :=
  let n := Z.of_N (N_of_ascii c) in
  bool_decide (9 ≤ n ≤ 13) || bool_decide (28 ≤ n ≤ 32)
  || bool_decide (n = 133) || bool_decide (n = 160).

Fixpoint lstrip (s : pystr) : pystr :=
  match s with
  | [] => []
  | c :: s' => if isspace c then lstrip s' else s
  end.

(** [s.strip()] *)
Definition strip (s : pystr) : pystr :=
  reverse (lstrip (reverse (lstrip s))).

(** [s.startswith(prefix)] *)
Fixpoint startswith (s prefix : pystr) {struct prefix} : bool :=
  match prefix, s with
  | [], _ => true
  | p :: prefix', c :: s' => bool_decide (c = p) && startswith s' prefix'
  | _ :: _, [] => false
  end.

(** [s.split()]: the maximal runs of characters that are not whitespace;
    [cur] is the run being read. *)
Fixpoint split_go (cur : pystr) (s : pystr) : list pystr :=
  match s with
  | [] => if bool_decide (cur = []) then [] else [cur]
  | c :: s' =>
      if isspace c
      then if bool_decide (cur = []) then split_go [] s' else cur :: split_go [] s'
      else split_go (cur ++ [c]) s'
  end.

Definition split (s : pystr) : list pystr := split_go [] s.

(** [s.split('%', 1)[0]]: what precedes the first ['%']. *)
Fixpoint before_percent (s : pystr) : pystr :=
  match s with
  | [] => []
  | c :: s' => if bool_decide (c = "%"%char) then [] else c :: before_percent s'
  end.

(** A string literal as a Python [str]. *)
Definition text (s : string) : pystr := list_ascii_of_string s.

(** [l[i]] for [i >= 0]. *)
Definition index {A} (l : list A) (i : nat) : result A :=
  match l !! i with
  | Some a => Ret a
  | None => Raise IndexError
  end.

(** The variables [formula], [n_vars] and [n_clauses] of the parser. *)
Record parse_state : Type := ParseState {
  ps_formula : Formula;
  ps_n_vars : option Z;
  ps_n_clauses : option Z
}.

(** How an iteration of [for line in f] ends: it falls through or
    [continue]s to the next line, or it [break]s. *)
Inductive flow : Type :=
  | Next (st : parse_state)
  | Stop (st : parse_state).

Section Parser.
Variable int : pystr → result Z.

(** The loop [for tok in line.split()], acting on [lits]. *)
Fixpoint read_lits (toks : list pystr) (lits : list Z) : result (list Z) :=
  match toks with
  | [] => Ret lits
  | tok :: toks' =>
      v ← int tok;
      if bool_decide (v = 0) then Ret lits else read_lits toks' (lits ++ [v])
  end.

(** The body of [for line in f]. *)
Definition parse_line (st : parse_state) (raw : pystr) : result flow :=
  let line := strip raw in
  if bool_decide (line = []) || startswith line (text "c")
  then Ret (Next st)
  else if startswith line (text "%") then Ret (Stop st)
  else if startswith line (text "p cnf") then
    let parts := split line in
    a ← index parts 2;
    n ← int a;
    b ← index parts 3;
    m ← int b;
    Ret (Next (ParseState (ps_formula st) (Some n) (Some m)))
  else
    let cut := bool_decide ("%"%char ∈ line) in
    let line := if cut then strip (before_percent line) else line in
    if cut && bool_decide (line = []) then Ret (Next st)
    else
      lits ← read_lits (split line) [];
      if bool_decide (lits = []) then Ret (Next st)
      else Ret (Next (ParseState (ps_formula st ++ [lits])
                                 (ps_n_vars st) (ps_n_clauses st))).

Fixpoint parse_lines (st : parse_state) (lines : list pystr)
  : result parse_state :=
  match lines with
  | [] => Ret st
  | raw :: lines' =>
      f ← parse_line st raw;
      match f with
      | Next st' => parse_lines st' lines'
      | Stop st' => Ret st'
      end
  end.

Definition parse_cnf_file (lines : list pystr) : result (Formula * Z * Z) :=
  st ← parse_lines (ParseState [] None None) lines;
  match ps_n_vars st, ps_n_clauses st with
  | Some n_vars, Some n_clauses => Ret (ps_formula st, n_vars, n_clauses)
  | _, _ => Raise ValueError
  end.
End Parser.

(** [int(s)] in base ten on the strings of the model: surrounding
    whitespace is ignored, then come an optional sign and decimal digits,
    between which single underscores may stand.  (The limit that recent
    interpreters put on the number of digits is not represented.) *)
Definition digit_value (c : ascii) : option Z :=
  let n := Z.of_N (N_of_ascii c) in
  if bool_decide (48 ≤ n ≤ 57) then Some (n - 48) else None.

Fixpoint digits_go (acc : Z) (after_digit : bool) (s : pystr) : option Z :=
  match s with
  | [] => if after_digit then Some acc else None
  | c :: s' =>
      match digit_value c with
      | Some d => digits_go (10 * acc + d) true s'
      | None =>
          if bool_decide (c = "_"%char) && after_digit
          then digits_go acc false s'
          else None
      end
  end.

Definition py_int (s : pystr) : result Z :=
  let '(sign, body) :=
    match strip s with
    | "-"%char :: body => (-1, body)
    | "+"%char :: body => (1, body)
    | body => (1, body)
    end in
  match digits_go 0 false body with
  | Some v => Ret (sign * v)
  | None => Raise ValueError
  end.

(** ** The vocabulary of the specification *)

(** A truth assignment gives every variable (a positive integer) a value;
    a positive literal asserts its variable, a negative one denies it. *)
Definition lit_true (a : Z → bool) (l : Z) : bool :=
  if bool_decide (l > 0) then a l else negb (a (- l)).

Definition clause_true (a : Z → bool) (c : Clause) : Prop :=
  ∃ l, l ∈ c ∧ lit_true a l = true.

Definition satisfies (a : Z → bool) (formula : Formula) : Prop :=
  ∀ c, c ∈ formula → clause_true a c.

Definition satisfiable (formula : Formula) : Prop :=
  ∃ a, satisfies a formula.

(** The assignment that a mask encodes: variable [i] (1-indexed) is true
    iff bit [i - 1] of the mask is set. *)
Definition mask_assignment (mask : Z) : Z → bool :=
  λ i, Z.testbit mask (i - 1).

(** The literals of the data model are nonzero. *)
Definition nonzero_literals (formula : Formula) : Prop :=
  ∀ c, c ∈ formula → 0 ∉ c.

(** A clause that holds a literal together with its negation. *)
Definition is_tautology (c : Clause) : Prop :=
  ∃ l, l ∈ c ∧ - l ∈ c.

#[global] Instance is_tautology_dec c : Decision (is_tautology c).
Proof.
  refine (cast_if (decide (Exists (λ l, - l ∈ c) c)));
    unfold is_tautology; rewrite Exists_exists in *; naive_solver.
Defined.

(** No clause of the formula is a tautology. *)
Definition tautology_free (fm : Formula) : Prop :=
  ∀ c, c ∈ fm → ¬ is_tautology c.

(** A unit clause has exactly one literal. *)
Definition is_unit (c : Clause) : Prop := length c = 1%nat.

(** One step of unit propagation: the formula is simplified by the literal
    of one of its unit clauses. *)
Definition unit_step (formula formula' : Formula) : Prop :=
  ∃ u, [u] ∈ formula ∧ formula' = simplify formula u.

(** The literal [l] occurs in the formula and its negation does not: the
    variable of [l] is pure and [l] is its sole observed polarity. *)
Definition pure_literal (formula : Formula) (l : Z) : Prop :=
  l ∈ mjoin formula ∧ - l ∉ mjoin formula.

#[global] Instance pure_literal_dec formula l : Decision (pure_literal formula l).
Proof. unfold pure_literal. apply _. Defined.

(** The clauses of a formula that hold none of its pure literals. *)
Definition without_pure_literals (formula : Formula) : Formula :=
  filter (λ c, Forall (λ l, ¬ pure_literal formula l) c) formula.

(** Duplicates collapsed, every literal staying where it was first seen. *)
Fixpoint dedup_first (l : list Z) : list Z :=
  match l with
  | [] => []
  | a :: l' => a :: filter (λ b, b ≠ a) (dedup_first l')
  end.

(** The literals of [p] followed by those of [q], without [x] and [-x]. *)
Definition resolvent (x : Z) (p q : Clause) : Clause :=
  filter (λ l, l ≠ x ∧ l ≠ - x) p ++ filter (λ l, l ≠ x ∧ l ≠ - x) q.

(** The resolvents on [x] that are kept: one for every pair of a clause
    containing [x] and a clause containing [-x], tautologies apart. *)
Definition retained_resolvents (x : Z) (fm : Formula) : Formula :=
  p ← filter (λ c, x ∈ c) fm;
  q ← filter (λ c, - x ∈ c) fm;
  if decide (is_tautology (resolvent x p q)) then []
  else [dedup_first (resolvent x p q)].

(** The formula on which a step that eliminates [x] recurses. *)
Definition eliminate (x : Z) (fm : Formula) : Formula :=
  filter (λ c, (x ∉ c) ∧ (- x ∉ c)) fm ++ retained_resolvents x fm.

(** ** Auxiliary notions of the proofs *)

(** The literals by which [eliminate_pures] simplifies. *)
Definition pure_literals (formula : Formula) : list Z :=
  (λ v, if bool_decide (v ∈ mjoin formula) then v else - v)
    <$> pure_variables (mjoin formula).

(** The literals of the unit clauses found at the start of a pass: each is
    either still the literal of a unit clause, or its variable has
    vanished and simplifying by it changes nothing. *)
Definition stale_or_unit (formula : Formula) (u : Z) : Prop :=
  [u] ∈ formula ∨ Z.abs u ∉ variables formula.

(** The body of a call of [dpll_solver], given the formula [F2] left by unit
    propagation and pure-literal elimination and the function [rec] that
    stands for the recursive calls. *)
Definition dpll_decide (rec : Formula → option (result bool)) (F2 : Formula)
  : option (result bool) :=
  if bool_decide (F2 = []) then Some (Ret true)
  else if existsb (λ c, bool_decide (length c = 0%nat)) F2 then Some (Ret false)
  else
    match F2 with
    | (lit :: _) :: _ => or_else (rec (simplify F2 lit)) (rec (simplify F2 (- lit)))
    | _ => Some (Raise IndexError)
    end.

(** A signature mentions a variable when one of its clauses holds the
    variable in either polarity. *)
Definition mentions (sig : gset (gset Z)) (v : Z) : Prop :=
  ∃ c, c ∈ sig ∧ (v ∈ c ∨ - v ∈ c).

(** Every signature visited so far mentions a variable that the current
    formula has lost. *)
Definition all_outgrown (seen : gset (gset (gset Z))) (fm : Formula) : Prop :=
  ∀ sig, sig ∈ seen → ∃ v, mentions sig v ∧ ¬ mentions (signature fm) v.

(** The number of calls of [resolve] that reached line 89 and computed a
    signature: all of them, but for the call that raised on the step
    budget after incrementing the counter. *)
Definition signatures_computed (r : dp_run) : Z :=
  match run_exit r with
  | ExitSteps => run_steps r - 1
  | _ => run_steps r
  end.

(** The assignment [a] changed on the variable of [l] so that [l] holds. *)
Definition assign (a : Z → bool) (l : Z) : Z → bool :=
  λ v, if bool_decide (v = Z.abs l) then bool_decide (l > 0) else a v.

(** A clause is settled by the literals other than [x] and [-x] when one of
    them is true. *)
Definition settled (a : Z → bool) (x : Z) (c : Clause) : Prop :=
  Exists (λ l, l ≠ x ∧ l ≠ - x ∧ lit_true a l = true) c.

(** The mask whose bits [0 .. n-1] are the values of the variables
    [1 .. n] under [a]. *)
Fixpoint mask_of (a : Z → bool) (n : nat) : Z :=
  match n with
  | O => 0
  | S k => mask_of a k + (if a (Z.of_nat (S k)) then 2 ^ Z.of_nat k else 0)
  end.

(** The parser's invariant: no clause of the formula read so far is empty
    and no literal is zero. *)
Definition well_read (st : parse_state) : Prop :=
  ([] ∉ ps_formula st) ∧ nonzero_literals (ps_formula st).

(** The state that an iteration hands on. *)
Definition flow_state (f : flow) : parse_state :=
  match f with
  | Next st | Stop st => st
  end.

(** ** Facts about [simplify] *)

Lemma simplify_iter_spec lit out c :
  simplify_iter lit out c = out ++ option_list (clause_image lit c).
Proof.
  unfold simplify_iter, clause_image.
  rewrite !bool_decide_decide.
  repeat case_decide; simpl; by rewrite ?app_nil_r.
Qed.

Lemma simplify_fold lit frm out :
  fold_left (simplify_iter lit) frm out = out ++ omap (clause_image lit) frm.
Proof.
  revert out; induction frm as [|c frm IH]; intros out; simpl.
  - by rewrite app_nil_r.
  - rewrite IH, simplify_iter_spec.
    destruct (clause_image lit c); simpl; by rewrite <-?app_assoc, ?app_nil_r.
Qed.

Lemma simplify_omap frm lit : simplify frm lit = omap (clause_image lit) frm.
Proof. unfold simplify. by rewrite simplify_fold. Qed.

Lemma simplify_nil lit : simplify [] lit = [].
Proof. reflexivity. Qed.

Lemma simplify_cons c frm lit :
  simplify (c :: frm) lit = option_list (clause_image lit c) ++ simplify frm lit.
Proof. rewrite !simplify_omap. simpl. by destruct (clause_image lit c). Qed.

Lemma simplify_app frm1 frm2 lit :
  simplify (frm1 ++ frm2) lit = simplify frm1 lit ++ simplify frm2 lit.
Proof. rewrite !simplify_omap. apply omap_app. Qed.

Lemma elem_of_simplify frm lit c' :
  c' ∈ simplify frm lit ↔ ∃ c, c ∈ frm ∧ clause_image lit c = Some c'.
Proof. rewrite simplify_omap. apply list_elem_of_omap. Qed.

Lemma clause_image_Some lit c c' :
  clause_image lit c = Some c' →
  (lit ∉ c) ∧ c' = filter (λ l, l ≠ - lit) c.
Proof.
  unfold clause_image. repeat case_decide; intros [= <-]; split; try done.
  symmetry. induction c as [|a c IHc]; [done|]. rewrite filter_cons_True; [|set_solver]. f_equal. apply IHc; set_solver.
Qed.

Lemma clause_image_free lit c c' :
  clause_image lit c = Some c' → (lit ∉ c') ∧ (- lit ∉ c').
Proof.
  intros [Hlit ->]%clause_image_Some. split.
  - rewrite list_elem_of_filter. tauto.
  - rewrite list_elem_of_filter. tauto.
Qed.

Lemma clause_image_subseteq lit c c' :
  clause_image lit c = Some c' → c' ⊆ c.
Proof.
  intros [_ ->]%clause_image_Some l. rewrite list_elem_of_filter. tauto.
Qed.

(** A clause in which neither polarity of [lit] occurs is its own image. *)
Lemma clause_image_id lit c :
  lit ∉ c → - lit ∉ c → clause_image lit c = Some c.
Proof. intros. unfold clause_image. by repeat case_decide. Qed.

Lemma simplify_free frm lit c :
  c ∈ simplify frm lit → (lit ∉ c) ∧ (- lit ∉ c).
Proof. intros (c0 & _ & Him)%elem_of_simplify. by eapply clause_image_free. Qed.

(** Simplifying by a literal whose variable does not occur changes nothing. *)
Lemma simplify_id frm lit :
  (∀ c, c ∈ frm → (lit ∉ c) ∧ (- lit ∉ c)) → simplify frm lit = frm.
Proof.
  intros Hfree. rewrite simplify_omap.
  induction frm as [|c frm IH]; [done|]. simpl.
  destruct (Hfree c) as [??]; [by left|].
  rewrite clause_image_id by done. f_equal.
  apply IH. intros c' Hc'. apply Hfree. by right.
Qed.

Lemma simplify_idempotent frm lit :
  simplify (simplify frm lit) lit = simplify frm lit.
Proof. apply simplify_id. intros c. apply simplify_free. Qed.

Lemma elem_of_variables formula v :
  v ∈ variables formula ↔ ∃ c l, c ∈ formula ∧ l ∈ c ∧ v = Z.abs l.
Proof.
  unfold variables. rewrite elem_of_list_to_set, list_elem_of_fmap.
  split.
  - intros (l & -> & (c & Hl & Hc)%list_elem_of_join). eauto.
  - intros (c & l & Hc & Hl & ->). exists l. split; [done|].
    apply list_elem_of_join. eauto.
Qed.

Lemma variables_simplify_subseteq frm lit :
  variables (simplify frm lit) ⊆ variables frm ∖ {[Z.abs lit]}.
Proof.
  intros v (c' & l & Hc' & Hl & ->)%elem_of_variables.
  pose proof (simplify_free _ _ _ Hc') as [Hp Hn].
  apply elem_of_simplify in Hc' as (c & Hc & Him).
  apply elem_of_difference. split.
  - apply elem_of_variables. exists c, l. split_and!; try done.
    by eapply clause_image_subseteq.
  - rewrite elem_of_singleton. intros Habs.
    assert (l = lit ∨ l = - lit) as [->| ->] by lia; done.
Qed.

Lemma variables_simplify_subset frm lit :
  Z.abs lit ∈ variables frm → variables (simplify frm lit) ⊂ variables frm.
Proof.
  intros Hin. eapply strict_trans_r; [apply variables_simplify_subseteq|].
  by apply subset_difference_elem_of.
Qed.

Lemma variables_head l c frm : Z.abs l ∈ variables ((l :: c) :: frm).
Proof. apply elem_of_variables. exists (l :: c), l. split_and!; [left|left|done]. Qed.

Lemma variables_unit u frm : [u] ∈ frm → Z.abs u ∈ variables frm.
Proof. intros Hu. apply elem_of_variables. exists [u], u. split_and!; [done|left|done]. Qed.

(** ** Properties of [simplify] *)

(** C4: [simplify] maps each clause as the specification says: a clause
    containing the literal is dropped, otherwise a clause containing the
    negated literal is kept without it, otherwise the clause is kept as it
    is; the images appear in the order of their clauses.  The loop of the
    source equals [simplify_spec], it distributes over concatenation, and
    [clause_image] has the three cases. *)
Theorem simplify_meets_spec (frm : Formula) (lit : Z) :
  simplify frm lit = simplify_spec frm lit
  ∧ (∀ frm1 frm2,
       simplify (frm1 ++ frm2) lit = simplify frm1 lit ++ simplify frm2 lit)
  ∧ (∀ c, lit ∈ c → clause_image lit c = None)
  ∧ (∀ c, lit ∉ c → - lit ∈ c →
          clause_image lit c = Some (filter (λ l, l ≠ - lit) c))
  ∧ (∀ c, lit ∉ c → - lit ∉ c → clause_image lit c = Some c).
Proof.
  split_and!.
  - apply simplify_omap.
  - intros. apply simplify_app.
  - intros c Hc. unfold clause_image. by case_decide.
  - intros c Hc Hn. unfold clause_image. by repeat case_decide.
  - intros c Hc Hn. by apply clause_image_id.
Qed.

(** C9: simplifying twice by a literal present in the formula gives the
    same formula as simplifying once. *)
Theorem simplify_twice (F : Formula) (l : Z) :
  l ∈ mjoin F → simplify (simplify F l) l = simplify F l.
Proof. intros _. apply simplify_idempotent. Qed.

Lemma simplify_twice_witness :
  2 ∈ mjoin [[1; 2]; [-2; 3]; [4]]
  ∧ simplify (simplify [[1; 2]; [-2; 3]; [4]] 2) 2
    = simplify [[1; 2]; [-2; 3]; [4]] 2.
Proof.
  split.
  - apply (bool_decide_unpack _). vm_compute. exact I.
  - apply (simplify_twice [[1; 2]; [-2; 3]; [4]] 2).
    apply (bool_decide_unpack _). vm_compute. exact I.
Defined.

(** ** Unit propagation *)

Lemma elem_of_unit_literals formula u : u ∈ unit_literals formula ↔ [u] ∈ formula.
Proof.
  unfold unit_literals. rewrite list_elem_of_fmap. split.
  - intros (c & -> & [Hlen Hc]%list_elem_of_filter).
    destruct c as [|a [|b c]]; simplify_eq/=. done.
  - intros Hu. exists [u]. split; [done|].
    apply list_elem_of_filter. done.
Qed.

Lemma unit_literals_nil formula :
  unit_literals formula = [] ↔ ∀ c, c ∈ formula → ¬ is_unit c.
Proof.
  split.
  - intros Hnil c Hc Hunit. unfold is_unit in Hunit.
    destruct c as [|u [|b c]]; simplify_eq/=.
    apply elem_of_unit_literals in Hc. rewrite Hnil in Hc. by apply elem_of_nil in Hc.
  - intros Hno. destruct (unit_literals formula) as [|u us] eqn:Hus; [done|].
    assert (u ∈ unit_literals formula) as Hu by (rewrite Hus; left).
    apply elem_of_unit_literals in Hu. by destruct (Hno _ Hu).
Qed.

Lemma variables_propagate_units us formula :
  variables (propagate_units us formula) ⊆ variables formula.
Proof.
  revert formula. induction us as [|u us IH]; intros formula; simpl; [done|].
  etrans; [apply IH|]. etrans; [apply variables_simplify_subseteq|].
  apply subseteq_difference_l. done.
Qed.

(** A pass of the [while] loop that finds a unit clause removes at least the
    variable of the first one. *)
Lemma variables_pass_subset formula :
  unit_literals formula ≠ [] →
  variables (propagate_units (unit_literals formula) formula) ⊂ variables formula.
Proof.
  intros Hne. destruct (unit_literals formula) as [|u us] eqn:Hus; [done|].
  assert ([u] ∈ formula) as Hu by (apply elem_of_unit_literals; rewrite Hus; left).
  simpl. eapply strict_trans_r; [apply variables_propagate_units|].
  by apply variables_simplify_subset, variables_unit.
Qed.

(** ** The size of a formula *)

Lemma clause_image_length lit c c' :
  clause_image lit c = Some c' → (length c' ≤ length c)%nat.
Proof. intros [_ ->]%clause_image_Some. apply length_filter. Qed.

Lemma formula_size_cons c formula :
  formula_size (c :: formula) = S (length c + formula_size formula).
Proof. reflexivity. Qed.

Lemma formula_size_simplify_cons formula lit c :
  formula_size (simplify (c :: formula) lit)
  = (match clause_image lit c with
     | Some c' => S (length c')
     | None => 0
     end + formula_size (simplify formula lit))%nat.
Proof. rewrite simplify_cons. by destruct (clause_image lit c). Qed.

Lemma formula_size_simplify formula lit :
  (formula_size (simplify formula lit) ≤ formula_size formula)%nat.
Proof.
  induction formula as [|c formula IH]; [done|].
  rewrite formula_size_simplify_cons, formula_size_cons.
  destruct (clause_image lit c) as [c'|] eqn:Him; [|lia].
  apply clause_image_length in Him. lia.
Qed.

(** Simplifying by a literal that occurs in the formula makes it smaller. *)
Lemma formula_size_simplify_lt formula lit c :
  c ∈ formula → lit ∈ c →
  (formula_size (simplify formula lit) < formula_size formula)%nat.
Proof.
  intros Hc Hlit.
  induction Hc as [c formula|c c0 formula Hc IH];
    rewrite formula_size_simplify_cons, formula_size_cons.
  - unfold clause_image. rewrite decide_True by done.
    pose proof (formula_size_simplify formula lit). lia.
  - specialize (IH Hlit).
    destruct (clause_image lit c0) as [c'|] eqn:Him; [|lia].
    apply clause_image_length in Him. lia.
Qed.

Lemma length_filter_lt (l : Z) (c : list Z) :
  l ∈ c → (length (filter (λ l0, l0 ≠ l) c) < length c)%nat.
Proof.
  induction 1 as [l c|l a c Hl IH].
  - rewrite filter_cons_False by (intros ?; done). simpl.
    pose proof (length_filter (λ l0, l0 ≠ l) c). lia.
  - rewrite filter_cons. case_decide; simpl; lia.
Qed.

(** So does simplifying by the negation of a literal that occurs. *)
Lemma formula_size_simplify_opp_lt formula lit c :
  c ∈ formula → lit ∈ c →
  (formula_size (simplify formula (- lit)) < formula_size formula)%nat.
Proof.
  intros Hc Hlit.
  induction Hc as [c formula|c c0 formula Hc IH];
    rewrite formula_size_simplify_cons, formula_size_cons.
  - pose proof (formula_size_simplify formula (- lit)).
    destruct (clause_image (- lit) c) as [c'|] eqn:Him; [|lia].
    apply clause_image_Some in Him as [_ ->]. rewrite Z.opp_involutive.
    pose proof (length_filter_lt _ _ Hlit). lia.
  - specialize (IH Hlit).
    destruct (clause_image (- lit) c0) as [c'|] eqn:Him; [|lia].
    apply clause_image_length in Him. lia.
Qed.

Lemma formula_size_propagate_units us formula :
  (formula_size (propagate_units us formula) ≤ formula_size formula)%nat.
Proof.
  revert formula. induction us as [|u us IH]; intros formula; simpl; [done|].
  etrans; [apply IH|]. apply formula_size_simplify.
Qed.

Lemma formula_size_pass_lt formula :
  unit_literals formula ≠ [] →
  (formula_size (propagate_units (unit_literals formula) formula)
   < formula_size formula)%nat.
Proof.
  intros Hne. destruct (unit_literals formula) as [|u us] eqn:Hus; [done|].
  assert ([u] ∈ formula) as Hu by (apply elem_of_unit_literals; rewrite Hus; left).
  simpl. eapply Nat.le_lt_trans; [apply formula_size_propagate_units|].
  eapply formula_size_simplify_lt; [done|left].
Qed.

(** ** The [while] loop *)

(** With fuel beyond the size of the formula the loop runs to its [break]. *)
Lemma unit_loop_total fuel formula :
  (formula_size formula < fuel)%nat →
  ∃ F1, unit_loop fuel formula = Some F1
        ∧ (formula_size F1 ≤ formula_size formula)%nat.
Proof.
  revert formula. induction fuel as [|fuel IH]; intros formula Hlt; [lia|].
  simpl. case_bool_decide as Hunits; [eauto|].
  pose proof (formula_size_pass_lt _ Hunits) as Hpass.
  destruct (IH (propagate_units (unit_literals formula) formula)) as (F1 & -> & Hle);
    [lia|].
  exists F1. split; [done|lia].
Qed.

Lemma unit_loop_fuel fuel1 fuel2 formula :
  (formula_size formula < fuel1)%nat → (formula_size formula < fuel2)%nat →
  unit_loop fuel1 formula = unit_loop fuel2 formula.
Proof.
  revert fuel2 formula. induction fuel1 as [|fuel1 IH]; intros fuel2 formula H1 H2; [lia|].
  destruct fuel2 as [|fuel2]; [lia|]. simpl.
  case_bool_decide as Hunits; [done|].
  pose proof (formula_size_pass_lt _ Hunits) as Hpass.
  apply IH; lia.
Qed.

Lemma stale_or_unit_simplify formula u u' :
  stale_or_unit formula u → stale_or_unit (simplify formula u') u.
Proof.
  intros [Hu|Hgone].
  - destruct (decide (Z.abs u = Z.abs u')) as [Habs|Hne].
    + right. intros Hin%variables_simplify_subseteq.
      apply elem_of_difference in Hin as [_ Hin]. apply Hin.
      by apply elem_of_singleton.
    + left. apply elem_of_simplify. exists [u]. split; [done|].
      apply clause_image_id; rewrite list_elem_of_singleton; lia.
  - right. intros Hin%variables_simplify_subseteq.
    by apply elem_of_difference in Hin as [Hin _].
Qed.

Lemma simplify_stale formula u :
  Z.abs u ∉ variables formula → simplify formula u = formula.
Proof.
  intros Hgone. apply simplify_id. intros c Hc.
  split; intros Hl; apply Hgone, elem_of_variables.
  - by exists c, u.
  - exists c, (- u). by rewrite Z.abs_opp.
Qed.

Lemma propagate_units_steps us formula :
  Forall (stale_or_unit formula) us →
  rtc unit_step formula (propagate_units us formula).
Proof.
  revert formula. induction us as [|u us IH]; intros formula Hus; simpl; [done|].
  apply Forall_cons in Hus as [Hu Hus].
  assert (rtc unit_step (simplify formula u) (propagate_units us (simplify formula u))) as Hrest.
  { apply IH. eapply Forall_impl; [done|]. intros u'. apply stale_or_unit_simplify. }
  destruct Hu as [Hu|Hgone].
  - eapply rtc_l; [|done]. by exists u.
  - by rewrite simplify_stale in * by done.
Qed.

Lemma unit_loop_steps fuel formula F1 :
  unit_loop fuel formula = Some F1 →
  rtc unit_step formula F1 ∧ (∀ c, c ∈ F1 → ¬ is_unit c).
Proof.
  revert formula. induction fuel as [|fuel IH]; intros formula; simpl; [done|].
  case_bool_decide as Hunits.
  - intros [= <-]. split; [done|]. by apply unit_literals_nil.
  - intros [Hrtc Hno]%IH. split; [|done].
    etrans; [|done]. apply propagate_units_steps, Forall_forall.
    intros u Hu%elem_of_unit_literals. by left.
Qed.

(** The literals collected at the start of a pass stay stale or unit all
    along the pass. *)
Lemma stale_or_unit_propagate us formula u :
  stale_or_unit formula u → stale_or_unit (propagate_units us formula) u.
Proof.
  revert formula. induction us as [|u' us IH]; intros formula Hu; [done|].
  simpl. by apply IH, stale_or_unit_simplify.
Qed.

(** The simplification that [for u in units] makes for the literal [u],
    after those for the literals [done] that precede it in the batch: the
    unit clause of [u] is still there and the variable of [u] leaves the
    formula, or the variable is already gone and nothing changes. *)
Lemma unit_step_of_pass formula done u rest :
  unit_literals formula = done ++ u :: rest →
  let G := propagate_units done formula in
  (([u] ∈ G) ∧ variables (simplify G u) ⊂ variables G)
  ∨ ((Z.abs u ∉ variables G) ∧ simplify G u = G).
Proof.
  intros Hunits G.
  assert (stale_or_unit G u) as [Hu|Hgone].
  { apply stale_or_unit_propagate. left. apply elem_of_unit_literals.
    rewrite Hunits, elem_of_app. right. left. }
  - left. split; [done|]. by apply variables_simplify_subset, variables_unit.
  - right. split; [done|]. by apply simplify_stale.
Qed.

(** C10 (as the code has it): no clause of [simplify F l] holds [l] or
    [-l], so the variable of [l] is gone from the formula and no variable
    is added.  Hence both branching steps of [dpll_solver] (by the first
    literal of the first clause and by its negation) strictly decrease the
    set of variables.  A simplification of the loop [for u in units] does
    so when the unit clause of [u] is still in the formula; when an earlier
    simplification of the same pass has consumed it, the variable of [u]
    is already gone and the formula is left as it is.  Every pass of the
    [while] loop that finds a unit clause strictly decreases the set. *)
Theorem simplify_eliminates_variable (F : Formula) (l : Z) :
  (∀ c, c ∈ simplify F l → (l ∉ c) ∧ (- l ∉ c))
  ∧ variables (simplify F l) ⊆ variables F ∖ {[Z.abs l]}
  ∧ (∀ c F', variables (simplify ((l :: c) :: F') l) ⊂ variables ((l :: c) :: F')
             ∧ variables (simplify ((l :: c) :: F') (- l))
                 ⊂ variables ((l :: c) :: F'))
  ∧ (∀ done u rest,
       unit_literals F = done ++ u :: rest →
       let G := propagate_units done F in
       (([u] ∈ G) ∧ variables (simplify G u) ⊂ variables G)
       ∨ ((Z.abs u ∉ variables G) ∧ simplify G u = G))
  ∧ (unit_literals F ≠ [] →
       variables (propagate_units (unit_literals F) F) ⊂ variables F).
Proof.
  split_and!.
  - intros c. apply simplify_free.
  - apply variables_simplify_subseteq.
  - intros c F'. split; apply variables_simplify_subset.
    + apply variables_head.
    + rewrite Z.abs_opp. apply variables_head.
  - apply unit_step_of_pass.
  - apply variables_pass_subset.
Qed.

(** C10, the step that does not decrease: on [[1], [-1]] the loop
    [for u in units] runs over [1] and [-1].  The simplification by [1]
    leaves the empty clause alone; the one by [-1] that follows finds no
    unit clause and no variable, and leaves the formula, and so its set of
    variables, as the first one made them. *)
Lemma stale_unit_step :
  unit_literals [[1]; [-1]] = [1; -1]
  ∧ propagate_units (unit_literals [[1]; [-1]]) [[1]; [-1]]
    = simplify (propagate_units [1] [[1]; [-1]]) (-1)
  ∧ propagate_units [1] [[1]; [-1]] = [[]]
  ∧ simplify (propagate_units [1] [[1]; [-1]]) (-1)
    = propagate_units [1] [[1]; [-1]]
  ∧ ¬ (variables (simplify (propagate_units [1] [[1]; [-1]]) (-1))
       ⊂ variables (propagate_units [1] [[1]; [-1]])).
Proof.
  split_and!; [by vm_compute..|].
  change (propagate_units [1] [[1]; [-1]]) with [[] : list Z].
  change (simplify [[]] (-1)) with [[] : list Z].
  intros [_ Hstrict]. by apply Hstrict.
Qed.

(** ** Pure-literal elimination *)

Lemma simplify_pure formula l :
  - l ∉ mjoin formula → simplify formula l = filter (λ c, l ∉ c) formula.
Proof.
  intros Hpure. rewrite simplify_omap.
  induction formula as [|c formula IH]; [done|]. simpl.
  assert (- l ∉ c) as Hc.
  { intros Hl. apply Hpure, list_elem_of_join. exists c. split; [done|left]. }
  assert (- l ∉ mjoin formula) as Hrest.
  { intros (c' & ? & ?)%list_elem_of_join. apply Hpure, list_elem_of_join.
    exists c'. split; [done|by right]. }
  rewrite filter_cons. unfold clause_image.
  destruct (decide (l ∈ c)).
  - rewrite decide_False by tauto. by apply IH.
  - rewrite decide_False by done. rewrite decide_True by done. f_equal. by apply IH.
Qed.

Lemma elem_of_join_filter (P : list Z → Prop) `{!∀ c, Decision (P c)}
    (formula : Formula) l :
  l ∈ mjoin (filter P formula) → l ∈ mjoin formula.
Proof.
  intros (c & Hl & [_ Hc]%list_elem_of_filter)%list_elem_of_join.
  apply list_elem_of_join. eauto.
Qed.

(** Simplifying in turn by literals whose negations do not occur keeps
    exactly the clauses that hold none of them. *)
Lemma simplify_pures ls formula :
  Forall (λ l, - l ∉ mjoin formula) ls →
  fold_left simplify ls formula = filter (λ c, Forall (λ l, l ∉ c) ls) formula.
Proof.
  revert formula. induction ls as [|l ls IH]; intros formula Hls; simpl.
  - symmetry. clear Hls. induction formula as [|c formula IHf]; [done|].
    rewrite filter_cons_True by constructor. by f_equal.
  - apply Forall_cons in Hls as [Hl Hls].
    rewrite simplify_pure by done. rewrite IH.
    + rewrite list_filter_filter. apply list_filter_iff.
      intros c. rewrite Forall_cons. tauto.
    + eapply Forall_impl; [done|]. intros l' Hl' Hin. simpl in *.
      by apply elem_of_join_filter in Hin.
Qed.

Lemma eliminate_in_order_fold lits vs formula :
  eliminate_in_order lits vs formula
  = fold_left simplify ((λ v, if bool_decide (v ∈ lits) then v else - v) <$> vs) formula.
Proof.
  revert formula. induction vs as [|v vs IH]; intros formula; [done|].
  simpl. apply IH.
Qed.

Lemma eliminate_pures_fold formula :
  eliminate_pures formula = fold_left simplify (pure_literals formula) formula.
Proof. apply eliminate_in_order_fold. Qed.

Lemma elem_of_pure_variables lits v :
  v ∈ pure_variables lits ↔
  0 ≤ v ∧ ((v ∈ lits ∧ - v ∉ lits) ∨ ((v ∉ lits) ∧ - v ∈ lits)).
Proof.
  unfold pure_variables.
  rewrite list_elem_of_filter, elem_of_elements, elem_of_list_to_set, list_elem_of_fmap.
  split.
  - intros [Hxor (l & -> & Hl)]. split; [lia|].
    destruct (decide (Z.abs l ∈ lits)), (decide (- Z.abs l ∈ lits));
      rewrite ?bool_decide_eq_true_2, ?bool_decide_eq_false_2 in Hxor by done;
      simpl in Hxor; tauto.
  - intros [Hv Hcase]. split.
    + destruct Hcase as [[H1 H2]|[H1 H2]];
        rewrite ?(bool_decide_eq_true_2 _ H1), ?(bool_decide_eq_false_2 _ H1),
          ?(bool_decide_eq_true_2 _ H2), ?(bool_decide_eq_false_2 _ H2); done.
    + destruct Hcase as [[H1 H2]|[H1 H2]].
      * exists v. split; [lia|done].
      * exists (- v). split; [lia|done].
Qed.

Lemma elem_of_pure_literals formula l :
  l ∈ pure_literals formula ↔ pure_literal formula l.
Proof.
  unfold pure_literals, pure_literal. rewrite list_elem_of_fmap. split.
  - intros (v & -> & [Hv Hcase]%elem_of_pure_variables).
    destruct Hcase as [[H1 H2]|[H1 H2]].
    + by rewrite bool_decide_eq_true_2.
    + rewrite bool_decide_eq_false_2 by done. by rewrite Z.opp_involutive.
  - intros [Hl Hn].
    assert (l ≠ 0) as Hnz by (intros ->; done).
    destruct (decide (0 < l)).
    + exists l. rewrite bool_decide_eq_true_2 by done. split; [done|].
      apply elem_of_pure_variables. split; [lia|]. by left.
    + exists (- l). rewrite Z.opp_involutive.
      rewrite bool_decide_eq_false_2 by done. split; [done|].
      apply elem_of_pure_variables. rewrite Z.opp_involutive. split; [lia|]. by right.
Qed.

Lemma filter_ext_in {A} (P Q : A → Prop) `{!∀ x, Decision (P x)}
    `{!∀ x, Decision (Q x)} (l : list A) :
  (∀ x, x ∈ l → P x ↔ Q x) → filter P l = filter Q l.
Proof.
  induction l as [|a l IH]; intros Hext; [done|].
  rewrite !filter_cons. rewrite IH by (intros x Hx; apply Hext; by right).
  destruct (decide (P a)) as [HP|HP], (decide (Q a)) as [HQ|HQ]; try done.
  - destruct HQ. apply Hext; [left|done].
  - destruct HP. apply Hext; [left|done].
Qed.

Lemma eliminate_pures_filter formula :
  eliminate_pures formula = without_pure_literals formula.
Proof.
  rewrite eliminate_pures_fold, simplify_pures.
  - apply filter_ext_in. intros c Hc. rewrite !Forall_forall. split.
    + intros Hno l Hl Hpure%elem_of_pure_literals. by apply (Hno l).
    + intros Hno l Hpure%elem_of_pure_literals Hl. by apply (Hno l).
  - apply Forall_forall. intros l [_ Hn]%elem_of_pure_literals. done.
Qed.

(** X5: the order in which the pure variables are visited is immaterial:
    whatever order Python's iteration over the set takes, the loop leaves
    the same formula. *)
Theorem eliminate_in_order_perm (formula : Formula) (vs : list Z) :
  vs ≡ₚ pure_variables (mjoin formula) →
  eliminate_in_order (mjoin formula) vs formula = eliminate_pures formula.
Proof.
  intros Hperm. rewrite eliminate_pures_fold, eliminate_in_order_fold.
  assert (((λ v, if bool_decide (v ∈ mjoin formula) then v else - v) <$> vs)
          ≡ₚ pure_literals formula) as Hls by (unfold pure_literals; by rewrite Hperm).
  rewrite !simplify_pures.
  - apply filter_ext_in. intros c _. by rewrite Hls.
  - apply Forall_forall. intros l [_ Hn]%elem_of_pure_literals. done.
  - rewrite Hls. apply Forall_forall. intros l [_ Hn]%elem_of_pure_literals. done.
Qed.

Lemma eliminate_in_order_perm_witness :
  eliminate_in_order (mjoin [[1; 2]; [-1; 2]; [3; -4]; [4]]) [2; 3]
    [[1; 2]; [-1; 2]; [3; -4]; [4]]
  = eliminate_pures [[1; 2]; [-1; 2]; [3; -4]; [4]].
Proof.
  apply (eliminate_in_order_perm [[1; 2]; [-1; 2]; [3; -4]; [4]] [2; 3]).
  assert (pure_variables (mjoin [[1; 2]; [-1; 2]; [3; -4]; [4]]) = [3; 2]) as ->
    by (by vm_compute).
  apply perm_swap.
Defined.

Lemma formula_size_filter (P : list Z → Prop) `{!∀ c, Decision (P c)} formula :
  (formula_size (filter P formula) ≤ formula_size formula)%nat.
Proof.
  induction formula as [|c formula IH]; [done|].
  rewrite filter_cons. case_decide; rewrite ?formula_size_cons; lia.
Qed.

Lemma formula_size_eliminate_pures formula :
  (formula_size (eliminate_pures formula) ≤ formula_size formula)%nat.
Proof. rewrite eliminate_pures_filter. apply formula_size_filter. Qed.

(** ** The recursion of [dpll_solver] *)

Lemma existsb_empty_clause (formula : Formula) :
  existsb (λ c, bool_decide (length c = 0%nat)) formula = true ↔ [] ∈ formula.
Proof.
  rewrite existsb_exists. split.
  - intros (c & Hc%list_elem_of_In & Hlen%bool_decide_eq_true).
    by destruct c.
  - intros Hc. exists []. split; [by apply list_elem_of_In|done].
Qed.

Lemma dpll_S fuel formula :
  dpll (S fuel) formula
  = F1 ← unit_loop (S fuel) formula; dpll_decide (dpll fuel) (eliminate_pures F1).
Proof. reflexivity. Qed.

Lemma dpll_decide_ext rec1 rec2 F2 :
  (∀ F, (formula_size F < formula_size F2)%nat → rec1 F = rec2 F) →
  dpll_decide rec1 F2 = dpll_decide rec2 F2.
Proof.
  intros Hext. unfold dpll_decide.
  case_bool_decide; [done|].
  destruct (existsb _ F2); [done|].
  destruct F2 as [|[|lit c] F']; try done.
  rewrite !Hext; [done| |].
  - eapply formula_size_simplify_opp_lt; left.
  - eapply formula_size_simplify_lt; left.
Qed.

Lemma dpll_decide_total rec F2 :
  (∀ F, (formula_size F < formula_size F2)%nat → ∃ b, rec F = Some (Ret b)) →
  ∃ b, dpll_decide rec F2 = Some (Ret b).
Proof.
  intros Hrec. unfold dpll_decide.
  case_bool_decide; [eauto|].
  destruct (existsb _ F2) eqn:Hempty; [eauto|].
  destruct F2 as [|[|lit c] F']; [done| |].
  - apply not_true_iff_false in Hempty. destruct Hempty.
    apply existsb_empty_clause. left.
  - destruct (Hrec (simplify ((lit :: c) :: F') lit)) as [b1 ->].
    { eapply formula_size_simplify_lt; left. }
    destruct (Hrec (simplify ((lit :: c) :: F') (- lit))) as [b2 ->].
    { eapply formula_size_simplify_opp_lt; left. }
    destruct b1; simpl; eauto.
Qed.

(** With fuel beyond the size of the formula every call returns a verdict. *)
Lemma dpll_total fuel formula :
  (formula_size formula < fuel)%nat → ∃ b, dpll fuel formula = Some (Ret b).
Proof.
  revert formula. induction fuel as [|fuel IH]; intros formula Hlt; [lia|].
  rewrite dpll_S.
  destruct (unit_loop_total (S fuel) formula Hlt) as (F1 & -> & Hle). simpl.
  apply dpll_decide_total. intros F HF. apply IH.
  pose proof (formula_size_eliminate_pures F1). lia.
Qed.

(** Any two such amounts of fuel give the same result. *)
Lemma dpll_fuel fuel1 fuel2 formula :
  (formula_size formula < fuel1)%nat → (formula_size formula < fuel2)%nat →
  dpll fuel1 formula = dpll fuel2 formula.
Proof.
  revert fuel2 formula.
  induction fuel1 as [|fuel1 IH]; intros fuel2 formula H1 H2; [lia|].
  destruct fuel2 as [|fuel2]; [lia|]. rewrite !dpll_S.
  rewrite (unit_loop_fuel (S fuel1) (S fuel2)) by done.
  destruct (unit_loop_total (S fuel2) formula H2) as (F1 & -> & Hle). simpl.
  apply dpll_decide_ext. intros F HF.
  pose proof (formula_size_eliminate_pures F1). apply IH; lia.
Qed.

Lemma dpll_solver_total formula : ∃ b, dpll_solver formula = Some (Ret b).
Proof. apply dpll_total. lia. Qed.

(** The unfolding of [dpll_solver]: its recursive calls are calls of
    [dpll_solver] itself. *)
Lemma dpll_solver_unfold formula :
  ∃ F1, unit_loop (S (formula_size formula)) formula = Some F1
        ∧ dpll_solver formula = dpll_decide dpll_solver (eliminate_pures F1).
Proof.
  unfold dpll_solver at 1. rewrite dpll_S.
  destruct (unit_loop_total (S (formula_size formula)) formula) as (F1 & HF1 & Hle);
    [lia|].
  exists F1. split; [done|]. rewrite HF1. simpl.
  apply dpll_decide_ext. intros F HF.
  pose proof (formula_size_eliminate_pures F1). apply dpll_fuel; lia.
Qed.

Lemma unit_loop_S fuel formula :
  unit_loop (S fuel) formula
  = if decide (Forall (λ c, ¬ is_unit c) formula) then Some formula
    else unit_loop fuel (fold_left simplify (unit_literals formula) formula).
Proof.
  simpl. case_bool_decide as Hunits; case_decide as Hall; try done.
  - destruct Hall. apply Forall_forall. by apply unit_literals_nil.
  - destruct Hunits. apply unit_literals_nil. by apply Forall_forall.
Qed.

Lemma dpll_decide_cases rec F2 :
  dpll_decide rec F2
  = if decide (F2 = []) then Some (Ret true)
    else if decide ([] ∈ F2) then Some (Ret false)
    else match F2 with
         | (lit :: _) :: _ =>
             match rec (simplify F2 lit) with
             | Some (Ret false) => rec (simplify F2 (- lit))
             | first => first
             end
         | _ => Some (Raise IndexError)
         end.
Proof.
  unfold dpll_decide. case_bool_decide; case_decide; try done.
  destruct (existsb _ F2) eqn:Hex; case_decide as Hempty; try done.
  - by apply existsb_empty_clause in Hex.
  - apply existsb_empty_clause in Hempty. congruence.
  - destruct F2 as [|[|lit c] F']; try done.
    unfold or_else. by destruct (rec _) as [[[]|]|].
Qed.

(** C5: the steps of a call of [dpll_solver], in their order.  The call
    with fuel [S fuel] is the [while] loop on the formula, then the pure
    pass on what the loop leaves ([F1]), then the two checks on what the
    pass leaves ([F2]: empty gives [True], an empty clause gives [False]),
    then the call on [F2] simplified by the first literal of its first
    clause, and the call on [F2] simplified by the negated literal only
    when the first call returned [False].
    (1) A pass of the loop simplifies by the literals of the unit clauses
    of the formula and the loop stops only on a formula without unit
    clauses; what it leaves is reached by simplifications by literals of
    unit clauses and has no unit clause.
    (2) The pure pass simplifies once by every literal that is pure in
    [F1], purity being judged in [F1] only: it leaves the clauses of [F1]
    that hold no such literal.
    With fuel beyond the size of the formula every call returns a
    verdict, the verdict of [dpll_solver]. *)
Theorem dpll_solver_steps (fuel : nat) (formula : Formula) :
  dpll 0 formula = None
  ∧ dpll (S fuel) formula
    = (F1 ← unit_loop (S fuel) formula;
       let F2 := eliminate_pures F1 in
       if decide (F2 = []) then Some (Ret true)
       else if decide ([] ∈ F2) then Some (Ret false)
       else match F2 with
            | (lit :: _) :: _ =>
                match dpll fuel (simplify F2 lit) with
                | Some (Ret false) => dpll fuel (simplify F2 (- lit))
                | first => first
                end
            | _ => Some (Raise IndexError)
            end)
  ∧ ((∀ u, u ∈ unit_literals formula ↔ [u] ∈ formula)
     ∧ unit_loop (S fuel) formula
       = if decide (Forall (λ c, ¬ is_unit c) formula) then Some formula
         else unit_loop fuel (fold_left simplify (unit_literals formula) formula))
  ∧ (∀ F1, unit_loop (S fuel) formula = Some F1 →
       rtc unit_step formula F1
       ∧ (∀ c, c ∈ F1 → ¬ is_unit c)
       ∧ eliminate_pures F1 = fold_left simplify (pure_literals F1) F1
       ∧ (∀ l, l ∈ pure_literals F1 ↔ pure_literal F1 l)
       ∧ eliminate_pures F1 = without_pure_literals F1)
  ∧ ((formula_size formula ≤ fuel)%nat →
       is_Some (unit_loop (S fuel) formula)
       ∧ ∃ b, dpll (S fuel) formula = Some (Ret b)
              ∧ dpll_solver formula = Some (Ret b)).
Proof.
  split_and!.
  - done.
  - rewrite dpll_S. destruct (unit_loop (S fuel) formula) as [F1|]; [|done].
    simpl. apply dpll_decide_cases.
  - apply elem_of_unit_literals.
  - apply unit_loop_S.
  - intros F1 HF1. apply unit_loop_steps in HF1 as [Hrtc Hno]. split_and!.
    + done.
    + done.
    + apply eliminate_pures_fold.
    + apply elem_of_pure_literals.
    + apply eliminate_pures_filter.
  - intros Hfuel. split.
    + destruct (unit_loop_total (S fuel) formula) as (F1 & -> & _); [lia|done].
    + destruct (dpll_total (S fuel) formula) as [b Hb]; [lia|].
      exists b. split; [done|]. unfold dpll_solver.
      rewrite <-Hb. apply dpll_fuel; lia.
Qed.

(** With fuel for one call and none for the calls it makes, the positive
    branch alone decides: here the call on the negated literal would not
    return, and the verdict is [True] all the same. *)
Example dpll_short_circuit :
  dpll 1 [[1; -1; 2]; [1; -2]] = None
  ∧ dpll 2 [[1; -1; 2]; [1; -2]] = Some (Ret true)
  ∧ dpll 1 (simplify [[1; -1; 2]; [1; -2]] 1) = Some (Ret true)
  ∧ dpll 1 (simplify [[1; -1; 2]; [1; -2]] (-1)) = None.
Proof. split_and!; by vm_compute. Qed.

(** Pure-literal elimination is not iterated: eliminating the pure literal
    [1] makes [2] pure, and [2] stays in the formula that is branched on. *)
Example eliminate_pures_single_pass :
  eliminate_pures [[1; -2]; [2; 3]; [-3; 2]] = [[2; 3]; [-3; 2]]
  ∧ pure_literal [[2; 3]; [-3; 2]] 2.
Proof.
  split; [by vm_compute|].
  apply (bool_decide_unpack _). by vm_compute.
Qed.

(** ** The resolution step of [dp_solver] *)

Lemma filter_all {A} (P : A → Prop) `{!∀ x, Decision (P x)} (l : list A) :
  Forall P l → filter P l = l.
Proof.
  induction 1 as [|a l Ha Hl IH]; [done|].
  rewrite filter_cons_True by done. by f_equal.
Qed.

Lemma dedup_first_filter (P : Z → Prop) `{!∀ x, Decision (P x)} (l : list Z) :
  dedup_first (filter P l) = filter P (dedup_first l).
Proof.
  induction l as [|a l IH]; [done|]. simpl.
  rewrite !filter_cons. destruct (decide (P a)) as [Ha|Ha]; simpl.
  - rewrite IH, !list_filter_filter. f_equal.
    apply list_filter_iff. intros b. tauto.
  - rewrite IH, list_filter_filter. apply list_filter_iff.
    intros b. split; [|tauto]. intros Hb. split; [done|]. by intros ->.
Qed.

(** Inserting keys one by one into a dictionary that holds the keys [d]. *)
Lemma fromkeys_fold (d rc : list Z) :
  fold_left (λ d l, if bool_decide (l ∈ d) then d else d ++ [l]) rc d
  = d ++ dedup_first (filter (λ l, l ∉ d) rc).
Proof.
  revert d. induction rc as [|a rc IH]; intros d; simpl.
  - by rewrite app_nil_r.
  - rewrite IH, filter_cons. case_bool_decide as Ha.
    + by rewrite decide_False by tauto.
    + rewrite decide_True by done. simpl. rewrite <-app_assoc. simpl.
      do 2 f_equal. rewrite <-dedup_first_filter, list_filter_filter.
      f_equal. apply list_filter_iff. intros b.
      rewrite elem_of_app, list_elem_of_singleton. tauto.
Qed.

Lemma fromkeys_dedup_first rc : fromkeys rc = dedup_first rc.
Proof.
  unfold fromkeys. rewrite fromkeys_fold. simpl. f_equal.
  apply filter_all, Forall_forall. intros l _. apply not_elem_of_nil.
Qed.

Lemma has_complement_tautology rc :
  has_complement rc = true ↔ is_tautology rc.
Proof.
  unfold has_complement, is_tautology. rewrite existsb_exists.
  split.
  - intros (l & Hl%list_elem_of_In & Hn%bool_decide_eq_true).
    exists l. by rewrite elem_of_elements, elem_of_list_to_set in *.
  - intros (l & Hl & Hn). exists l. split.
    + apply list_elem_of_In. by rewrite elem_of_elements, elem_of_list_to_set.
    + apply bool_decide_eq_true. by rewrite elem_of_list_to_set.
Qed.

Lemma filter_abs_resolvent x p q :
  0 ≤ x →
  filter (λ l, Z.abs l ≠ x) p ++ filter (λ l, Z.abs l ≠ x) q = resolvent x p q.
Proof.
  intros Hx. unfold resolvent. f_equal; apply list_filter_iff; intros l; lia.
Qed.

(** The accumulating loop over [neg] appends the retained resolvents of [p]. *)
Lemma resolve_pair_fold x p neg new :
  0 ≤ x →
  fold_left (resolve_pair x p) neg new
  = new ++ (q ← neg;
            if decide (is_tautology (resolvent x p q)) then []
            else [dedup_first (resolvent x p q)]).
Proof.
  intros Hx. revert new. induction neg as [|q neg IH]; intros new; simpl.
  - by rewrite app_nil_r.
  - rewrite IH. unfold resolve_pair. rewrite filter_abs_resolvent by done.
    rewrite fromkeys_dedup_first.
    destruct (has_complement (resolvent x p q)) eqn:Hc.
    + apply has_complement_tautology in Hc. by rewrite decide_True by done.
    + rewrite decide_False; [by rewrite <-app_assoc|].
      intros Ht%has_complement_tautology. congruence.
Qed.

Lemma resolvents_fold x pos neg new :
  0 ≤ x →
  fold_left (λ new p, fold_left (resolve_pair x p) neg new) pos new
  = new ++ (p ← pos; q ← neg;
            if decide (is_tautology (resolvent x p q)) then []
            else [dedup_first (resolvent x p q)]).
Proof.
  intros Hx. revert new. induction pos as [|p pos IH]; intros new; simpl.
  - by rewrite app_nil_r.
  - rewrite IH, resolve_pair_fold by done. by rewrite <-app_assoc.
Qed.

Lemma resolvents_retained x fm :
  0 ≤ x →
  resolvents x (filter (λ c, x ∈ c) fm) (filter (λ c, - x ∈ c) fm)
  = retained_resolvents x fm.
Proof. intros Hx. unfold resolvents. by rewrite resolvents_fold. Qed.

Lemma next_formula_eliminate x fm :
  0 ≤ x → next_formula x fm = eliminate x fm.
Proof.
  intros Hx. unfold next_formula, eliminate. f_equal.
  by apply resolvents_retained.
Qed.


Example eliminate_example :
  eliminate 1 [[1; 2]; [-1; 3]; [4]; [1; -3]; [-1; 2; 2]]
  = [[4]; [2; 3]; [2]; [-3; 2]].
Proof. by vm_compute. Qed.

(** ** The cycle guard of [dp_solver] *)

Lemma mentions_signature fm v :
  mentions (signature fm) v ↔ ∃ c, c ∈ fm ∧ (v ∈ c ∨ - v ∈ c).
Proof.
  unfold mentions, signature. split.
  - intros (s & Hs & Hv). apply elem_of_list_to_set, list_elem_of_fmap in Hs
      as (c & -> & Hc). exists c. by rewrite !elem_of_list_to_set in Hv.
  - intros (c & Hc & Hv). exists (list_to_set c). split.
    + apply elem_of_list_to_set, list_elem_of_fmap. eauto.
    + by rewrite !elem_of_list_to_set.
Qed.

Lemma mentions_variables fm v :
  mentions (signature fm) v ↔ Z.abs v ∈ variables fm.
Proof.
  rewrite mentions_signature, elem_of_variables. split.
  - intros (c & Hc & [Hv|Hv]).
    + by exists c, v.
    + exists c, (- v). by rewrite Z.abs_opp.
  - intros (c & l & Hc & Hl & Habs). exists c. split; [done|].
    assert (l = v ∨ l = - v) as [->| ->] by lia; rewrite ?Z.opp_involutive; tauto.
Qed.

Lemma elem_of_dedup_first l rc : l ∈ dedup_first rc ↔ l ∈ rc.
Proof.
  induction rc as [|a rc IH]; [done|]. simpl.
  rewrite !elem_of_cons, list_elem_of_filter, IH.
  destruct (decide (l = a)); tauto.
Qed.

Lemma elem_of_resolvent x p q l :
  l ∈ resolvent x p q ↔ (l ≠ x ∧ l ≠ - x) ∧ (l ∈ p ∨ l ∈ q).
Proof.
  unfold resolvent. rewrite elem_of_app, !list_elem_of_filter. tauto.
Qed.

Lemma elem_of_retained_resolvents x fm c :
  c ∈ retained_resolvents x fm ↔
  ∃ p q, p ∈ fm ∧ x ∈ p ∧ q ∈ fm ∧ - x ∈ q
         ∧ ¬ is_tautology (resolvent x p q) ∧ c = dedup_first (resolvent x p q).
Proof.
  unfold retained_resolvents. rewrite list_elem_of_bind. split.
  - intros (p & (q & Hc & [Hq Hqfm]%list_elem_of_filter)%list_elem_of_bind
              & [Hp Hpfm]%list_elem_of_filter).
    case_decide; [by apply elem_of_nil in Hc|].
    apply list_elem_of_singleton in Hc. exists p, q. done.
  - intros (p & q & Hpfm & Hp & Hqfm & Hq & Ht & ->).
    exists p. split; [|by apply list_elem_of_filter].
    apply list_elem_of_bind. exists q. split; [|by apply list_elem_of_filter].
    rewrite decide_False by done. by left.
Qed.

(** The step removes the eliminated variable and adds none. *)
Lemma variables_eliminate x fm :
  variables (eliminate x fm) ⊆ variables fm ∖ {[Z.abs x]}.
Proof.
  intros v (c & l & Hc & Hl & ->)%elem_of_variables.
  apply elem_of_difference. rewrite elem_of_singleton, elem_of_variables.
  unfold eliminate in Hc. apply elem_of_app in Hc as [Hc|Hc].
  - apply list_elem_of_filter in Hc as [[Hp Hn] Hc]. split.
    + by exists c, l.
    + intros Habs. assert (l = x ∨ l = - x) as [->| ->] by lia; done.
  - apply elem_of_retained_resolvents in Hc
      as (p & q & Hpfm & Hp & Hqfm & Hq & Ht & ->).
    apply elem_of_dedup_first, elem_of_resolvent in Hl as [[H1 H2] [Hl|Hl]].
    + split; [by exists p, l|lia].
    + split; [by exists q, l|lia].
Qed.

Lemma variables_next_formula l0 fm :
  variables (next_formula (Z.abs l0) fm) ⊆ variables fm ∖ {[Z.abs l0]}.
Proof.
  rewrite next_formula_eliminate by lia.
  etrans; [apply variables_eliminate|]. by rewrite Z.abs_idemp.
Qed.

Lemma all_outgrown_next seen l0 c0 fm' :
  let fm := (l0 :: c0) :: fm' in
  all_outgrown seen fm →
  all_outgrown ({[signature fm]} ∪ seen) (next_formula (Z.abs l0) fm).
Proof.
  intros fm Hinv sig Hsig.
  pose proof (variables_next_formula l0 fm) as Hsub.
  apply elem_of_union in Hsig as [->%elem_of_singleton|Hsig].
  - exists (Z.abs l0). rewrite !mentions_variables, Z.abs_idemp. split.
    + apply variables_head.
    + intros Hin%Hsub. apply elem_of_difference in Hin as [_ Hin].
      apply Hin. by apply elem_of_singleton.
  - destruct (Hinv sig Hsig) as (v & Hv & Hgone). exists v. split; [done|].
    rewrite mentions_variables in *. intros Hin%Hsub.
    by apply elem_of_difference in Hin as [Hin _].
Qed.

Lemma all_outgrown_fresh seen fm : all_outgrown seen fm → signature fm ∉ seen.
Proof. intros Hinv Hin. by destruct (Hinv _ Hin) as (v & Hv & Hgone). Qed.

(** From a state in which every visited signature is outgrown, a run never
    leaves through the cycle guard, never indexes out of range, and adds a
    new signature to [seen] at every call that computes one. *)
Lemma resolve_invariant expired fuel fm seen steps r :
  all_outgrown seen fm →
  resolve expired fuel fm seen steps = Some r →
  run_exit r ≠ ExitSeen ∧ run_exit r ≠ ExitIndex
  ∧ Z.of_nat (size (run_seen r)) - Z.of_nat (size seen)
    = signatures_computed r - steps.
Proof.
  revert fm seen steps.
  induction fuel as [|fuel IH]; intros fm seen steps Hinv; [done|].
  pose proof (all_outgrown_fresh _ _ Hinv) as Hfresh.
  assert (size ({[signature fm]} ∪ seen) = S (size seen)) as Hsize.
  { rewrite size_union by (apply disjoint_singleton_l; done).
    by rewrite size_singleton. }
  cbn [resolve].
  destruct (expired steps).
  { intros [= <-]. unfold signatures_computed. simpl. split_and!; [done..|lia]. }
  case_bool_decide.
  { intros [= <-]. unfold signatures_computed. simpl. split_and!; [done..|lia]. }
  rewrite (bool_decide_eq_false_2 (_ ∈ seen)) by done.
  case_bool_decide as Hnil.
  { intros [= <-]. unfold signatures_computed. simpl. split_and!; [done..|lia]. }
  destruct (existsb _ fm) eqn:Hex.
  { intros [= <-]. unfold signatures_computed. simpl. split_and!; [done..|lia]. }
  destruct fm as [|[|l0 c0] fm']; [done| |].
  { apply not_true_iff_false in Hex. destruct Hex.
    apply existsb_empty_clause. left. }
  cbv zeta. intros Hr.
  apply IH in Hr as (H1 & H2 & H3); [|by apply all_outgrown_next].
  split_and!; [done..|lia].
Qed.

(** The step budget bounds the number of calls, so the fuel [dp_fuel] is
    never used up. *)
Lemma resolve_total expired fuel fm seen steps :
  steps ≤ MAX_DP_STEPS → Z.of_nat fuel + steps > MAX_DP_STEPS →
  is_Some (resolve expired fuel fm seen steps).
Proof.
  revert fm seen steps.
  induction fuel as [|fuel IH]; intros fm seen steps Hle Hgt; [lia|].
  cbn [resolve].
  destruct (expired steps); [done|].
  case_bool_decide; [done|].
  case_bool_decide; [done|].
  case_bool_decide; [done|].
  destruct (existsb _ fm); [done|].
  destruct fm as [|[|l0 c0] fm']; [done..|].
  apply IH; lia.
Qed.





Lemma dp_solver_run_total expired formula : is_Some (dp_solver_run expired formula).
Proof.
  apply resolve_total; unfold dp_fuel.
  - by vm_compute.
  - rewrite Nat2Z.inj_succ, Z2Nat.id by (by vm_compute). lia.
Qed.

(** X6: every run of [dp_solver] comes to an end within the fuel that the
    step budget provides, and never by indexing [fm[0][0]] out of range. *)
Theorem dp_solver_total (expired : Z → bool) (formula : Formula) :
  ∃ r, dp_solver_run expired formula = Some r
       ∧ dp_solver expired formula = Some (dp_outcome (run_exit r))
       ∧ run_exit r ≠ ExitIndex.
Proof.
  destruct (dp_solver_run_total expired formula) as [r Hr]. exists r.
  split; [done|]. split.
  - unfold dp_solver. by rewrite Hr.
  - unfold dp_solver_run in Hr. apply resolve_invariant in Hr as (_ & H2 & _);
      [done|]. intros sig Hsig. by apply not_elem_of_empty in Hsig.
Qed.

(** C7: a run of [dp_solver] (which starts with an empty [seen]) never
    takes the cycle guard.  Each step removes the variable it eliminates
    from the formula it recurses on and adds no variable, so each
    signature computed is new: at the end [seen] holds as many signatures
    as there were calls that computed one. *)
Theorem dp_cycle_guard_never_taken (expired : Z → bool) (formula : Formula) :
  (∃ r, dp_solver_run expired formula = Some r
        ∧ run_exit r ≠ ExitSeen
        ∧ Z.of_nat (size (run_seen r)) = signatures_computed r)
  ∧ (∀ l0 c0 fm',
       let fm := (l0 :: c0) :: fm' in
       Z.abs l0 ∈ variables fm
       ∧ variables (next_formula (Z.abs l0) fm) ⊆ variables fm ∖ {[Z.abs l0]}).
Proof.
  split.
  - destruct (dp_solver_run_total expired formula) as [r Hr]. exists r.
    split; [done|]. unfold dp_solver_run in Hr.
    apply resolve_invariant in Hr as (H1 & _ & H3).
    + split; [done|]. rewrite size_empty in H3. lia.
    + intros sig Hsig. by apply not_elem_of_empty in Hsig.
  - intros l0 c0 fm' fm. split.
    + apply variables_head.
    + apply variables_next_formula.
Qed.
(** ** The engines on particular formulas *)

(** C1: the formula [[1, -1]] has one variable and is satisfiable;
    [brute_force_solver] and [dpll_solver] return [True] on it, while
    [dp_solver], which resolves the tautological clause with itself into
    the empty clause, returns [False] whenever it is not out of time. *)
Theorem engines_disagree :
  variables [[1; -1]] = {[1]}
  ∧ satisfies (λ _, true) [[1; -1]]
  ∧ brute_force_solver [[1; -1]] = Ret true
  ∧ dpll_solver [[1; -1]] = Some (Ret true)
  ∧ next_formula 1 [[1; -1]] = [[]]
  ∧ dp_solver in_time [[1; -1]] = Some (Ret false)
  ∧ ∀ expired, dp_solver expired [[1; -1]] = Some (Ret false)
               ∨ dp_solver expired [[1; -1]] = Some (Raise TimeoutError).
Proof.
  split_and!; [by vm_compute| |by vm_compute..|].
  - intros c ->%list_elem_of_singleton. exists 1. split; [left|done].
  - intros expired. unfold dp_solver, dp_solver_run, dp_fuel.
    assert (∃ fuel, Z.to_nat MAX_DP_STEPS = S fuel) as [fuel ->].
    { exists (Z.to_nat (MAX_DP_STEPS - 1)). unfold MAX_DP_STEPS. lia. }
    cbn [resolve]. destruct (expired 0); [by right|].
    rewrite bool_decide_eq_false_2 by (unfold MAX_DP_STEPS; lia).
    rewrite bool_decide_eq_false_2 by apply not_elem_of_empty.
    rewrite bool_decide_eq_false_2 by done.
    change (existsb _ [[1; -1]]) with false. cbv zeta.
    change (next_formula (Z.abs 1) [[1; -1]]) with [[] : list Z].
    destruct (expired (0 + 1)); [by right|].
    rewrite bool_decide_eq_false_2 by (unfold MAX_DP_STEPS; lia).
    rewrite bool_decide_eq_false_2.
    + by left.
    + rewrite elem_of_union, elem_of_singleton.
      intros [Heq|Hempty]; [|by apply not_elem_of_empty in Hempty].
      assert (∅ ∈ signature [[]]) as Hin by (by vm_compute).
      rewrite Heq in Hin. vm_compute in Hin. done.
Qed.

(** C2: on the empty formula [dp_solver] and [dpll_solver] return [True],
    but [brute_force_solver] raises [ValueError] ([max] of an empty
    sequence), which the executor reports as a timeout. *)
Theorem empty_formula :
  brute_force_solver [] = Raise ValueError
  ∧ dp_solver in_time [] = Some (Ret true)
  ∧ dpll_solver [] = Some (Ret true)
  ∧ ∀ env expired late n,
      n ≤ BF_THRESHOLD →
      run_solver env expired late [] n BruteForce = TimeoutLine BruteForce.
Proof.
  split_and!; [by vm_compute..|].
  intros env expired late n Hn. unfold run_solver.
  rewrite (bool_decide_eq_false_2 (n > BF_THRESHOLD)) by lia.
  rewrite andb_false_r. cbn. by destruct (late BruteForce []).
Qed.

(** C8: on the formula whose only clause is empty, which no assignment
    satisfies and on which the other two engines return [False],
    [brute_force_solver] raises [ValueError] ([max] of an empty
    sequence) instead of returning [False]. *)
Theorem brute_force_empty_clause :
  ¬ satisfiable [[]]
  ∧ brute_force_solver [[]] = Raise ValueError
  ∧ dp_solver in_time [[]] = Some (Ret false)
  ∧ dpll_solver [[]] = Some (Ret false).
Proof.
  split_and!; [|by vm_compute..].
  intros [a Ha]. destruct (Ha []) as (l & Hl & _); [left|].
  by apply elem_of_nil in Hl.
Qed.

(** ** The missing CDCL dependency *)

Lemma run_file_parsed env expired late formula n m :
  run_file env expired late (Parsed formula n m)
  = [FileHeader; Counts n m;
     run_solver env expired late formula n BruteForce;
     run_solver env expired late formula n DavisPutnam;
     run_solver env expired late formula n DPLL;
     run_solver env expired late formula n CDCL].
Proof. reflexivity. Qed.

(** C3: when the package cannot be imported, [cdcl_solver] calls
    [sys.exit(1)] inside the child process of [run_with_timeout].
    [_worker] does not catch [SystemExit], the child ends with status 1 and
    an empty queue, and [run_with_timeout] returns [{'timeout': True}]:
    [main] prints TIMEOUT for that solver, goes on with the files that
    follow and ends with status 0. *)
Theorem missing_dependency_is_a_timeout
    (glucose : Formula → bool) (expired : Z → bool)
    (late : solver_name → Formula → bool) (formula : Formula) (n m : Z)
    (files : list parsed) :
  let env := Environment false glucose in
  cdcl_solver env formula = Some (Raise (SystemExit 1))
  ∧ _worker (cdcl_solver env formula) [] = Exited [] 1
  ∧ run_solver env expired late formula n CDCL = TimeoutLine CDCL
  ∧ main env expired late (Directory (Parsed formula n m :: files))
    = ([FileHeader; Counts n m;
        run_solver env expired late formula n BruteForce;
        run_solver env expired late formula n DavisPutnam;
        run_solver env expired late formula n DPLL;
        TimeoutLine CDCL]
       ++ mjoin (run_file env expired late <$> files) ++ [Finished], 0).
Proof.
  intros env.
  assert (run_solver env expired late formula n CDCL = TimeoutLine CDCL) as Hrun.
  { unfold run_solver. cbn. by destruct (late CDCL formula). }
  split_and!; [done..|].
  unfold main. rewrite fmap_cons, run_file_parsed, Hrun. done.
Qed.

(** ** [brute_force_solver] on formulas that hold a literal *)

Lemma land_shiftr_testbit mask k :
  0 ≤ k → bool_decide (Z.land (mask ≫ k) 1 ≠ 0) = Z.testbit mask k.
Proof.
  intros Hk.
  assert (Z.land (mask ≫ k) 1 = Z.b2z (Z.testbit mask k)) as ->.
  { change (Z.land (mask ≫ k) 1) with (Z.land (mask ≫ k) (Z.ones 1)).
    rewrite (Z.land_ones (mask ≫ k) 1) by lia.
    change (2 ^ 1) with 2. rewrite <-(Z.bit0_mod (mask ≫ k)).
    rewrite Z.shiftr_spec by lia. by rewrite Z.add_0_l. }
  by destruct (Z.testbit mask k).
Qed.

Lemma lit_holds_spec mask lit :
  lit ≠ 0 → lit_holds mask lit = Ret (lit_true (mask_assignment mask) lit).
Proof.
  intros Hlit. unfold lit_holds, lit_true, mask_assignment.
  rewrite bool_decide_eq_false_2 by lia.
  rewrite land_shiftr_testbit by lia. f_equal.
  case_bool_decide.
  - rewrite Z.abs_eq by lia. by destruct (Z.testbit _ _).
  - rewrite Z.abs_neq by lia. by destruct (Z.testbit _ _).
Qed.

Lemma any_lit_spec mask clause :
  0 ∉ clause →
  ∃ b, any_lit mask clause = Ret b
       ∧ (b = true ↔ clause_true (mask_assignment mask) clause).
Proof.
  unfold clause_true. induction clause as [|lit clause IH]; intros Hnz; simpl.
  - exists false. split; [done|]. split; [done|].
    intros (l & Hl & _). by apply elem_of_nil in Hl.
  - rewrite lit_holds_spec by (intros ->; apply Hnz; left). simpl.
    destruct (lit_true (mask_assignment mask) lit) eqn:Hlit.
    + exists true. split; [done|]. split; [|done]. intros _. exists lit. split; [left|done].
    + destruct IH as (b & -> & Hb); [by intros ?; apply Hnz; right|].
      exists b. split; [done|]. rewrite Hb. split.
      * intros (l & Hl & Ht). exists l. split; [by right|done].
      * intros (l & [->|Hl]%elem_of_cons & Ht); [congruence|eauto].
Qed.

Lemma all_clauses_spec mask formula :
  nonzero_literals formula →
  ∃ b, all_clauses mask formula = Ret b
       ∧ (b = true ↔ satisfies (mask_assignment mask) formula).
Proof.
  unfold satisfies. induction formula as [|clause formula IH]; intros Hnz; simpl.
  - exists true. split; [done|]. split; [|done]. intros _ c Hc.
    by apply elem_of_nil in Hc.
  - destruct (any_lit_spec mask clause) as (b & -> & Hb); [apply Hnz; left|].
    simpl. destruct b.
    + destruct IH as (b & -> & Hb'); [by intros c Hc; apply Hnz; right|].
      exists b. split; [done|]. rewrite Hb'. split.
      * intros Hall c [->|Hc]%elem_of_cons; [by apply Hb|by apply Hall].
      * intros Hall c Hc. apply Hall. by right.
    + exists false. split; [done|]. split; [done|]. intros Hall.
      assert (false = true); [|done]. apply Hb, Hall. left.
Qed.

Lemma search_masks_spec formula masks :
  nonzero_literals formula →
  ∃ b, search_masks formula masks = Ret b
       ∧ (b = true ↔
          ∃ mask, mask ∈ masks ∧ satisfies (mask_assignment mask) formula).
Proof.
  intros Hnz. induction masks as [|mask masks IH]; simpl.
  - exists false. split; [done|]. split; [done|].
    intros (mask & Hmask & _). by apply elem_of_nil in Hmask.
  - destruct (all_clauses_spec mask formula Hnz) as (b & -> & Hb). simpl.
    destruct b.
    + exists true. split; [done|]. split; [|done]. intros _.
      exists mask. split; [left|by apply Hb].
    + destruct IH as (b & -> & Hb'). exists b. split; [done|].
      rewrite Hb'. split.
      * intros (m & Hm & Hsat). exists m. split; [by right|done].
      * intros (m & [->|Hm]%elem_of_cons & Hsat); [|eauto].
        assert (false = true); [|done]. by apply Hb.
Qed.

Lemma fold_left_max_spec (l : list Z) (a : Z) :
  a ≤ fold_left Z.max l a ∧ ∀ b, b ∈ l → b ≤ fold_left Z.max l a.
Proof.
  revert a. induction l as [|c l IH]; intros a; simpl.
  - split; [lia|]. intros b Hb. by apply elem_of_nil in Hb.
  - destruct (IH (Z.max a c)) as [H1 H2]. split; [lia|].
    intros b [->|Hb]%elem_of_cons; [lia|by apply H2].
Qed.

(** [max] over a formula that holds a literal returns a bound on the
    magnitudes of all its literals. *)
Lemma max_abs_spec formula :
  mjoin formula ≠ [] →
  ∃ n, max_abs formula = Ret n ∧ 0 ≤ n
       ∧ ∀ l, l ∈ mjoin formula → Z.abs l ≤ n.
Proof.
  intros Hne. unfold max_abs.
  destruct (mjoin formula) as [|l0 ls]; [done|]. rewrite fmap_cons.
  destruct (fold_left_max_spec (Z.abs <$> ls) (Z.abs l0)) as [H1 H2].
  eexists. split; [done|]. split; [lia|].
  intros l [->|Hl]%elem_of_cons; [done|].
  apply H2, list_elem_of_fmap. eauto.
Qed.

(** X1: on a formula with nonzero literals that holds at least one
    literal, [brute_force_solver] returns a verdict, and the verdict is
    [True] exactly when some mask below [2^n] satisfies every clause,
    [n] being the largest magnitude of a literal. *)
Theorem brute_force_solver_spec (formula : Formula) :
  nonzero_literals formula → mjoin formula ≠ [] →
  ∃ n b, max_abs formula = Ret n
         ∧ brute_force_solver formula = Ret b
         ∧ (b = true ↔
            ∃ mask, 0 ≤ mask < 2 ^ n
                    ∧ satisfies (mask_assignment mask) formula).
Proof.
  intros Hnz Hne.
  destruct (max_abs_spec formula Hne) as (n & Hn & Hpos & _).
  destruct (search_masks_spec formula (seqZ 0 (1 ≪ n)) Hnz) as (b & Hb & Hiff).
  exists n, b. split; [done|]. split.
  - unfold brute_force_solver. by rewrite Hn.
  - rewrite Hiff. rewrite Z.shiftl_1_l.
    split; intros (mask & Hmask & Hsat); exists mask; split; try done.
    + apply elem_of_seqZ in Hmask. lia.
    + apply elem_of_seqZ. lia.
Qed.

Lemma brute_force_solver_spec_witness :
  ∃ n b, max_abs [[1; 2]; [-1]] = Ret n
         ∧ brute_force_solver [[1; 2]; [-1]] = Ret b
         ∧ (b = true ↔
            ∃ mask, 0 ≤ mask < 2 ^ n
                    ∧ satisfies (mask_assignment mask) [[1; 2]; [-1]]).
Proof.
  apply (brute_force_solver_spec [[1; 2]; [-1]]).
  - intros c Hc. apply (bool_decide_unpack _).
    revert c Hc. apply Forall_forall. apply (bool_decide_unpack _). by vm_compute.
  - done.
Defined.

(** ** Simplification and satisfiability *)

Lemma lit_true_opp a l : l ≠ 0 → lit_true a (- l) = negb (lit_true a l).
Proof.
  intros Hl. unfold lit_true. rewrite Z.opp_involutive.
  destruct (decide (l > 0)).
  - rewrite bool_decide_eq_false_2, bool_decide_eq_true_2 by lia. done.
  - rewrite bool_decide_eq_true_2, bool_decide_eq_false_2 by lia.
    by rewrite negb_involutive.
Qed.

(** Under an assignment that makes [l] true, the formula and its
    simplification by [l] are satisfied together. *)
Lemma satisfies_simplify a formula l :
  l ≠ 0 → lit_true a l = true →
  satisfies a (simplify formula l) ↔ satisfies a formula.
Proof.
  intros Hl Ha. split.
  - intros Hsat c Hc. destruct (clause_image l c) as [c'|] eqn:Him.
    + destruct (Hsat c') as (l' & Hl' & Ht).
      { apply elem_of_simplify. eauto. }
      exists l'. split; [|done]. by eapply clause_image_subseteq.
    + exists l. split; [|done]. unfold clause_image in Him.
      by repeat case_decide.
  - intros Hsat c' (c & Hc & Him)%elem_of_simplify.
    destruct (Hsat c Hc) as (l' & Hl' & Ht).
    exists l'. split; [|done].
    apply clause_image_Some in Him as [_ ->]. apply list_elem_of_filter.
    split; [|done]. intros ->. rewrite lit_true_opp, Ha in Ht by done. done.
Qed.

Lemma lit_true_assign a l : l ≠ 0 → lit_true (assign a l) l = true.
Proof.
  intros Hl. unfold lit_true, assign. destruct (decide (l > 0)).
  - rewrite !(bool_decide_eq_true_2 (l > 0)) by done.
    by rewrite bool_decide_eq_true_2 by lia.
  - rewrite !(bool_decide_eq_false_2 (l > 0)) by done.
    by rewrite bool_decide_eq_true_2 by lia.
Qed.

Lemma lit_true_assign_other a l l' :
  l' ≠ l → l' ≠ - l → l ≠ 0 → lit_true (assign a l) l' = lit_true a l'.
Proof.
  intros H1 H2 Hl. unfold lit_true, assign.
  case_bool_decide; by rewrite bool_decide_eq_false_2 by lia.
Qed.

Lemma satisfies_assign a formula l :
  l ≠ 0 → (∀ c, c ∈ formula → (l ∉ c) ∧ (- l ∉ c)) →
  satisfies a formula → satisfies (assign a l) formula.
Proof.
  intros Hl Hfree Hsat c Hc. destruct (Hsat c Hc) as (l' & Hl' & Ht).
  destruct (Hfree c Hc) as [Hp Hn].
  exists l'. split; [done|]. rewrite lit_true_assign_other; try done.
  - by intros ->.
  - by intros ->.
Qed.

Lemma satisfiable_simplify formula l :
  l ≠ 0 → satisfiable (simplify formula l) → satisfiable formula.
Proof.
  intros Hl [a Ha]. exists (assign a l).
  apply (satisfies_simplify _ _ l); [done|by apply lit_true_assign|].
  apply satisfies_assign; [done| |done]. intros c. apply simplify_free.
Qed.

(** Case split on a literal. *)
Lemma satisfiable_split formula l :
  l ≠ 0 →
  satisfiable formula ↔
  satisfiable (simplify formula l) ∨ satisfiable (simplify formula (- l)).
Proof.
  intros Hl. split.
  - intros [a Ha]. destruct (lit_true a l) eqn:Ht.
    + left. exists a. by apply satisfies_simplify.
    + right. exists a. apply satisfies_simplify; [lia| |done].
      by rewrite lit_true_opp, Ht.
  - intros [Hsat|Hsat]; eapply satisfiable_simplify; [|done| |done]; lia.
Qed.

Lemma satisfiable_unit formula u :
  u ≠ 0 → [u] ∈ formula →
  satisfiable (simplify formula u) ↔ satisfiable formula.
Proof.
  intros Hu Hin. split; [by apply satisfiable_simplify|].
  intros [a Ha]. exists a. apply satisfies_simplify; [done| |done].
  destruct (Ha [u] Hin) as (l & ->%list_elem_of_singleton & Ht). done.
Qed.

Lemma nonzero_literals_simplify formula l :
  nonzero_literals formula → nonzero_literals (simplify formula l).
Proof.
  intros Hnz c' (c & Hc & Him)%elem_of_simplify Hin.
  apply (Hnz c Hc). by eapply clause_image_subseteq.
Qed.

Lemma unit_steps_satisfiable formula F1 :
  rtc unit_step formula F1 → nonzero_literals formula →
  nonzero_literals F1 ∧ (satisfiable F1 ↔ satisfiable formula).
Proof.
  induction 1 as [F|F F' F'' (u & Hu & ->) Hrtc IH]; intros Hnz; [done|].
  destruct IH as [Hnz' Hiff]; [by apply nonzero_literals_simplify|].
  split; [done|]. rewrite Hiff. apply satisfiable_unit; [|done].
  intros ->. apply (Hnz [0] Hu). left.
Qed.

Lemma satisfiable_simplify_list ls formula :
  0 ∉ ls → satisfiable (fold_left simplify ls formula) → satisfiable formula.
Proof.
  revert formula. induction ls as [|l ls IH]; intros formula Hnz; simpl; [done|].
  intros Hsat. apply (satisfiable_simplify _ l); [by intros ->; apply Hnz; left|].
  apply IH; [|done]. intros H0. apply Hnz. by right.
Qed.

Lemma satisfiable_subseteq (formula formula' : Formula) :
  formula' ⊆ formula → satisfiable formula → satisfiable formula'.
Proof. intros Hsub [a Ha]. exists a. intros c Hc. by apply Ha, Hsub. Qed.

Lemma eliminate_pures_satisfiable formula :
  nonzero_literals formula →
  nonzero_literals (eliminate_pures formula)
  ∧ (satisfiable (eliminate_pures formula) ↔ satisfiable formula).
Proof.
  intros Hnz. split; [|split].
  - rewrite eliminate_pures_filter. intros c [_ Hc]%list_elem_of_filter.
    by apply Hnz.
  - rewrite eliminate_pures_fold. apply satisfiable_simplify_list.
    intros [H0 _]%elem_of_pure_literals.
    apply list_elem_of_join in H0 as (c & H0 & Hc). by apply (Hnz c).
  - rewrite eliminate_pures_filter. apply satisfiable_subseteq.
    intros c [_ Hc]%list_elem_of_filter. done.
Qed.

(** ** [dpll_solver] decides satisfiability *)

Lemma dpll_solver_correct_size (k : nat) (formula : Formula) :
  (formula_size formula < k)%nat → nonzero_literals formula →
  ∃ b, dpll_solver formula = Some (Ret b) ∧ (b = true ↔ satisfiable formula).
Proof.
  revert formula. induction k as [|k IH]; intros formula Hk Hnz; [lia|].
  destruct (dpll_solver_unfold formula) as (F1 & HF1 & ->).
  pose proof (unit_loop_total _ formula (Nat.lt_succ_diag_r _)) as (F1' & HF1' & Hle).
  rewrite HF1 in HF1'. injection HF1' as <-.
  apply unit_loop_steps in HF1 as [Hrtc _].
  destruct (unit_steps_satisfiable _ _ Hrtc Hnz) as [Hnz1 Hsat1].
  destruct (eliminate_pures_satisfiable F1 Hnz1) as [Hnz2 Hsat2].
  pose proof (formula_size_eliminate_pures F1) as Hle2.
  cut (∃ b, dpll_decide dpll_solver (eliminate_pures F1) = Some (Ret b)
            ∧ (b = true ↔ satisfiable (eliminate_pures F1))).
  { intros (b & Hb & Hiff). exists b. split; [done|]. by rewrite Hiff, Hsat2. }
  destruct (eliminate_pures F1) as [|c0 F'] eqn:HF2; unfold dpll_decide.
  { exists true. split; [done|]. split; [|done]. intros _. exists (λ _, true).
    intros c Hc. by apply elem_of_nil in Hc. }
  rewrite bool_decide_eq_false_2 by done.
  destruct (existsb _ _) eqn:Hex.
  { exists false. split; [done|]. split; [done|]. intros [a Ha].
    apply existsb_empty_clause in Hex. destruct (Ha [] Hex) as (l & Hl & _).
    by apply elem_of_nil in Hl. }
  destruct c0 as [|lit c0].
  { apply not_true_iff_false in Hex. destruct Hex.
    apply existsb_empty_clause. left. }
  assert (lit ≠ 0) as Hlit.
  { intros ->. apply (Hnz2 (0 :: c0)); left. }
  destruct (IH (simplify ((lit :: c0) :: F') lit)) as (b1 & -> & Hb1).
  { assert (formula_size (simplify ((lit :: c0) :: F') lit)
            < formula_size ((lit :: c0) :: F'))%nat; [|lia].
    eapply formula_size_simplify_lt; left. }
  { by apply nonzero_literals_simplify. }
  destruct (IH (simplify ((lit :: c0) :: F') (- lit))) as (b2 & -> & Hb2).
  { assert (formula_size (simplify ((lit :: c0) :: F') (- lit))
            < formula_size ((lit :: c0) :: F'))%nat; [|lia].
    eapply formula_size_simplify_opp_lt; left. }
  { by apply nonzero_literals_simplify. }
  destruct b1; simpl.
  - exists true. split; [done|]. split; [|done]. intros _.
    apply (satisfiable_split _ lit Hlit). left. by apply Hb1.
  - exists b2. split; [done|]. rewrite Hb2. split.
    + intros Hs. apply (satisfiable_split _ lit Hlit). by right.
    + intros [Hs|Hs]%(satisfiable_split _ lit Hlit); [|done].
      by apply Hb1 in Hs.
Qed.

(** X2: on every formula with nonzero literals [dpll_solver] returns a
    verdict, and the verdict is [True] exactly when the formula is
    satisfiable. *)
Theorem dpll_solver_correct (formula : Formula) :
  nonzero_literals formula →
  ∃ b, dpll_solver formula = Some (Ret b) ∧ (b = true ↔ satisfiable formula).
Proof. apply (dpll_solver_correct_size (S (formula_size formula))). lia. Qed.

Lemma dpll_solver_correct_witness :
  ∃ b, dpll_solver [[1; 2]; [-1]; [-2; 3]] = Some (Ret b)
       ∧ (b = true ↔ satisfiable [[1; 2]; [-1]; [-2; 3]]).
Proof.
  apply (dpll_solver_correct [[1; 2]; [-1]; [-2; 3]]).
  intros c Hc. apply (bool_decide_unpack _).
  revert c Hc. apply Forall_forall. apply (bool_decide_unpack _). by vm_compute.
Defined.

(** ** Resolution and satisfiability *)

Lemma elem_of_eliminate x fm c :
  c ∈ eliminate x fm ↔
  (c ∈ fm ∧ (x ∉ c) ∧ (- x ∉ c)) ∨ c ∈ retained_resolvents x fm.
Proof.
  unfold eliminate. rewrite elem_of_app, list_elem_of_filter. tauto.
Qed.

Lemma nonzero_literals_eliminate x fm :
  nonzero_literals fm → nonzero_literals (eliminate x fm).
Proof.
  intros Hnz c [(Hc & _)|Hc]%elem_of_eliminate; [by apply Hnz|].
  apply elem_of_retained_resolvents in Hc as (p & q & Hp & _ & Hq & _ & _ & ->).
  rewrite elem_of_dedup_first, elem_of_resolvent.
  intros [_ [H0|H0]]; [by apply (Hnz p)|by apply (Hnz q)].
Qed.

Lemma tautology_free_eliminate x fm :
  tautology_free fm → tautology_free (eliminate x fm).
Proof.
  intros Hfree c [(Hc & _)|Hc]%elem_of_eliminate; [by apply Hfree|].
  apply elem_of_retained_resolvents in Hc as (p & q & _ & _ & _ & _ & Ht & ->).
  intros (l & Hl & Hn). apply Ht. exists l. by rewrite !elem_of_dedup_first in *.
Qed.

(** An assignment that satisfies the formula satisfies every resolvent. *)
Lemma eliminate_sound a x fm :
  x ≠ 0 → tautology_free fm → satisfies a fm → satisfies a (eliminate x fm).
Proof.
  intros Hx Hfree Hsat c [(Hc & _)|Hc]%elem_of_eliminate; [by apply Hsat|].
  apply elem_of_retained_resolvents in Hc
    as (p & q & Hpfm & Hp & Hqfm & Hq & _ & ->).
  destruct (Hsat p Hpfm) as (lp & Hlp & Htp).
  destruct (Hsat q Hqfm) as (lq & Hlq & Htq).
  assert (- x ∉ p) as Hnp.
  { intros Hn. apply (Hfree p Hpfm). by exists x. }
  assert (x ∉ q) as Hnq.
  { intros Hn. apply (Hfree q Hqfm). exists x. done. }
  destruct (lit_true a x) eqn:Hax.
  - exists lq. split; [|done]. apply elem_of_dedup_first, elem_of_resolvent.
    split; [|by right]. split; [by intros ->|].
    intros ->. rewrite lit_true_opp, Hax in Htq by done. done.
  - exists lp. split; [|done]. apply elem_of_dedup_first, elem_of_resolvent.
    split; [|by left]. split; [|by intros ->].
    intros ->. congruence.
Qed.

Lemma settled_assign a x l c :
  x ≠ 0 → (l = x ∨ l = - x) → settled a x c → clause_true (assign a l) c.
Proof.
  intros Hx Hl (l' & Hl' & H1 & H2 & Ht)%Exists_exists.
  exists l'. split; [done|]. rewrite lit_true_assign_other; [done|..].
  - destruct Hl as [->| ->]; lia.
  - destruct Hl as [->| ->]; lia.
  - destruct Hl as [->| ->]; lia.
Qed.

Lemma clause_true_settled a x c :
  (x ∉ c) → (- x ∉ c) → clause_true a c → settled a x c.
Proof.
  intros Hp Hn (l & Hl & Ht). apply Exists_exists. exists l.
  split; [done|]. split_and!; [by intros ->|by intros ->|done].
Qed.

(** An assignment that satisfies the formula after the step can be changed
    on [x] so as to satisfy the formula before it. *)
Lemma eliminate_complete a x fm :
  x ≠ 0 → nonzero_literals fm → satisfies a (eliminate x fm) →
  satisfies (assign a x) fm ∨ satisfies (assign a (- x)) fm.
Proof.
  intros Hx Hnz Hsat.
  destruct (decide (Forall (λ q, - x ∈ q → x ∈ q ∨ settled a x q) fm))
    as [Hall|Hbad].
  - left. intros c Hc. rewrite Forall_forall in Hall.
    destruct (decide (x ∈ c)) as [Hp|Hp].
    { exists x. split; [done|]. by apply lit_true_assign. }
    destruct (decide (- x ∈ c)) as [Hn|Hn].
    { destruct (Hall c Hc Hn) as [?|Hset]; [done|].
      apply (settled_assign a x x c); auto. }
    apply (settled_assign a x x c); [done|auto|].
    apply clause_true_settled; [done..|].
    apply Hsat, elem_of_eliminate. left. done.
  - right. apply not_Forall_Exists in Hbad; [|intros q; apply _].
    apply Exists_exists in Hbad as (q & Hq & Hbad).
    assert (- x ∈ q ∧ (x ∉ q) ∧ ¬ settled a x q) as (Hnq & Hpq & Hunset).
    { destruct (decide (- x ∈ q)) as [Hin|Hout].
      - split; [done|]. split; intros ?; apply Hbad; intros _; [by left|by right].
      - destruct Hbad. intros ?. done. }
    intros c Hc.
    destruct (decide (- x ∈ c)) as [Hn|Hn].
    { exists (- x). split; [done|]. apply lit_true_assign. lia. }
    destruct (decide (x ∈ c)) as [Hp|Hp]; cycle 1.
    { apply (settled_assign a x (- x) c); [done|auto|].
      apply clause_true_settled; [done..|].
      apply Hsat, elem_of_eliminate. left. done. }
    apply (settled_assign a x (- x) c); [done|auto|].
    assert (∃ l, l ∈ resolvent x c q ∧ lit_true a l = true) as (l & Hl & Ht).
    { destruct (decide (is_tautology (resolvent x c q))) as [(l & Hl & Hl')|Hnt].
      - assert (l ≠ 0) as Hl0.
        { intros ->. apply elem_of_resolvent in Hl as [_ [H0|H0]];
            [by apply (Hnz c)|by apply (Hnz q)]. }
        destruct (lit_true a l) eqn:Ht; [eauto|].
        exists (- l). split; [done|]. by rewrite lit_true_opp, Ht.
      - destruct (Hsat (dedup_first (resolvent x c q))) as (l & Hl & Ht).
        { apply elem_of_eliminate. right. apply elem_of_retained_resolvents.
          exists c, q. done. }
        exists l. by rewrite elem_of_dedup_first in Hl. }
    apply elem_of_resolvent in Hl as [[H1 H2] [Hl|Hl]].
    + apply Exists_exists. exists l. done.
    + destruct Hunset. apply Exists_exists. exists l. done.
Qed.

Lemma eliminate_satisfiable x fm :
  x ≠ 0 → nonzero_literals fm → tautology_free fm →
  satisfiable (eliminate x fm) ↔ satisfiable fm.
Proof.
  intros Hx Hnz Hfree. split.
  - intros [a Ha]. destruct (eliminate_complete a x fm) as [Hs|Hs]; eauto.
    + by exists (assign a x).
    + by exists (assign a (- x)).
  - intros [a Ha]. exists a. by apply eliminate_sound.
Qed.

(** ** [dp_solver] on formulas without tautological clauses *)

Lemma resolve_correct expired fuel fm seen steps r :
  all_outgrown seen fm → nonzero_literals fm → tautology_free fm →
  resolve expired fuel fm seen steps = Some r →
  ∀ b, dp_outcome (run_exit r) = Ret b → (b = true ↔ satisfiable fm).
Proof.
  revert fm seen steps.
  induction fuel as [|fuel IH]; intros fm seen steps Hinv Hnz Hfree; [done|].
  pose proof (all_outgrown_fresh _ _ Hinv) as Hfresh.
  cbn [resolve].
  destruct (expired steps); [by intros [= <-] b|].
  case_bool_decide; [by intros [= <-] b|].
  rewrite (bool_decide_eq_false_2 (_ ∈ seen)) by done.
  case_bool_decide as Hnil.
  { intros [= <-] b [= <-]. split; [|done]. intros _. exists (λ _, true).
    intros c Hc. rewrite Hnil in Hc. by apply elem_of_nil in Hc. }
  destruct (existsb _ fm) eqn:Hex.
  { intros [= <-] b [= <-]. split; [done|]. intros [a Ha].
    apply existsb_empty_clause in Hex. destruct (Ha [] Hex) as (l & Hl & _).
    by apply elem_of_nil in Hl. }
  destruct fm as [|[|l0 c0] fm']; [done| |].
  { apply not_true_iff_false in Hex. destruct Hex.
    apply existsb_empty_clause. left. }
  cbv zeta. intros Hr b Hb.
  assert (l0 ≠ 0) as Hl0 by (intros ->; apply (Hnz (0 :: c0)); left).
  rewrite <-(eliminate_satisfiable (Z.abs l0)) by (done || lia).
  rewrite next_formula_eliminate in Hr by lia.
  eapply IH; [| | |done..].
  - rewrite <-next_formula_eliminate by lia. by apply all_outgrown_next.
  - by apply nonzero_literals_eliminate.
  - by apply tautology_free_eliminate.
Qed.

(** With a clock that never expires and a step budget above the number of
    variables, a run ends with a verdict. *)
Lemma resolve_verdict fuel fm seen steps :
  all_outgrown seen fm →
  (size (variables fm) < fuel)%nat →
  steps + Z.of_nat (size (variables fm)) < MAX_DP_STEPS →
  ∃ r b, resolve in_time fuel fm seen steps = Some r
         ∧ dp_outcome (run_exit r) = Ret b.
Proof.
  revert fm seen steps.
  induction fuel as [|fuel IH]; intros fm seen steps Hinv Hfuel Hsteps; [lia|].
  pose proof (all_outgrown_fresh _ _ Hinv) as Hfresh.
  cbn [resolve]. unfold in_time at 1.
  rewrite bool_decide_eq_false_2 by lia.
  rewrite (bool_decide_eq_false_2 (_ ∈ seen)) by done.
  case_bool_decide as Hnil; [by eexists _, _|].
  destruct (existsb _ fm) eqn:Hex; [by eexists _, _|].
  destruct fm as [|[|l0 c0] fm']; [done| |].
  { apply not_true_iff_false in Hex. destruct Hex.
    apply existsb_empty_clause. left. }
  cbv zeta.
  assert (size (variables (next_formula (Z.abs l0) ((l0 :: c0) :: fm')))
          < size (variables ((l0 :: c0) :: fm')))%nat as Hless.
  { apply subset_size. eapply strict_trans_r; [apply variables_next_formula|].
    apply subset_difference_elem_of, variables_head. }
  apply IH; [by apply all_outgrown_next|lia..].
Qed.

(** X3: on a formula with nonzero literals and no tautological clause, a
    verdict of [dp_solver] is [True] exactly when the formula is
    satisfiable; and [dp_solver] does return a verdict when the clock
    never expires and the formula has fewer than [MAX_DP_STEPS] variables. *)
Theorem dp_solver_correct (formula : Formula) :
  nonzero_literals formula → tautology_free formula →
  (∀ expired b, dp_solver expired formula = Some (Ret b) →
                (b = true ↔ satisfiable formula))
  ∧ (Z.of_nat (size (variables formula)) < MAX_DP_STEPS →
     ∃ b, dp_solver in_time formula = Some (Ret b)).
Proof.
  intros Hnz Hfree.
  assert (all_outgrown ∅ formula) as Hinv.
  { intros sig Hsig. by apply not_elem_of_empty in Hsig. }
  split.
  - intros expired b. unfold dp_solver, dp_solver_run.
    destruct (resolve _ _ _ _ _) as [r|] eqn:Hr; [|done].
    intros [= Hb]. by eapply resolve_correct.
  - intros Hvars. unfold dp_solver, dp_solver_run.
    destruct (resolve_verdict dp_fuel formula ∅ 0) as (r & b & -> & Hb); [done| |lia|].
    + unfold dp_fuel. lia.
    + exists b. simpl. by rewrite Hb.
Qed.

Lemma dp_solver_correct_witness :
  (∀ expired b, dp_solver expired [[1; 2]; [-1]; [-2; 3]] = Some (Ret b) →
                (b = true ↔ satisfiable [[1; 2]; [-1]; [-2; 3]]))
  ∧ (Z.of_nat (size (variables [[1; 2]; [-1]; [-2; 3]])) < MAX_DP_STEPS →
     ∃ b, dp_solver in_time [[1; 2]; [-1]; [-2; 3]] = Some (Ret b)).
Proof.
  apply (dp_solver_correct [[1; 2]; [-1]; [-2; 3]]).
  - intros c Hc. apply (bool_decide_unpack _).
    revert c Hc. apply Forall_forall. apply (bool_decide_unpack _). by vm_compute.
  - intros c Hc. revert c Hc. apply Forall_forall.
    apply (bool_decide_unpack _). by vm_compute.
Defined.

(** ** Masks and assignments *)

Lemma mask_of_bound a n : 0 ≤ mask_of a n < 2 ^ Z.of_nat n.
Proof.
  induction n as [|k IH]; [done|].
  cbn [mask_of]. rewrite (Nat2Z.inj_succ k), Z.pow_succ_r by lia.
  destruct (a _); lia.
Qed.

Lemma mask_of_testbit a n i :
  1 ≤ i ≤ Z.of_nat n → Z.testbit (mask_of a n) (i - 1) = a i.
Proof.
  induction n as [|k IH]; intros Hi; [lia|].
  pose proof (mask_of_bound a k) as Hbound.
  cbn [mask_of]. destruct (decide (i ≤ Z.of_nat k)) as [Hlow|Hhigh].
  - rewrite <-IH by lia.
    rewrite <-(Z.mod_pow2_bits_low (mask_of a k + _) (Z.of_nat k)) by lia.
    rewrite <-(Z.mod_pow2_bits_low (mask_of a k) (Z.of_nat k)) by lia.
    f_equal. destruct (a (Z.of_nat (S k))).
    + rewrite <-(Z.mul_1_l (2 ^ Z.of_nat k)) at 1. by rewrite Z_mod_plus_full.
    + by rewrite Z.add_0_r.
  - assert (i = Z.of_nat (S k)) as -> by lia.
    replace (Z.of_nat (S k) - 1) with (Z.of_nat k) by lia.
    destruct (a (Z.of_nat (S k))).
    + apply Z.testbit_true; [lia|].
      rewrite <-(Z.mul_1_l (2 ^ Z.of_nat k)) at 1.
      rewrite Z.div_add by lia. rewrite Z.div_small by lia. done.
    + apply Z.testbit_false; [lia|].
      rewrite Z.add_0_r, Z.div_small by lia. done.
Qed.

Lemma lit_true_mask_of a n l :
  1 ≤ Z.abs l ≤ Z.of_nat n →
  lit_true (mask_assignment (mask_of a n)) l = lit_true a l.
Proof.
  intros Hl. unfold lit_true, mask_assignment.
  case_bool_decide; rewrite mask_of_testbit by lia; done.
Qed.

(** A formula whose literals have magnitudes in [1 .. n] is satisfiable
    exactly when one of the masks below [2^n] satisfies it. *)
Lemma satisfiable_mask formula n :
  0 ≤ n → nonzero_literals formula →
  (∀ l, l ∈ mjoin formula → Z.abs l ≤ n) →
  satisfiable formula ↔
  ∃ mask, 0 ≤ mask < 2 ^ n ∧ satisfies (mask_assignment mask) formula.
Proof.
  intros Hn Hnz Hmax. split.
  - intros [a Ha]. exists (mask_of a (Z.to_nat n)). split.
    + pose proof (mask_of_bound a (Z.to_nat n)) as Hb.
      by rewrite Z2Nat.id in Hb by lia.
    + intros c Hc. destruct (Ha c Hc) as (l & Hl & Ht).
      exists l. split; [done|]. rewrite lit_true_mask_of; [done|].
      assert (l ≠ 0) by (intros ->; by apply (Hnz c)).
      assert (Z.abs l ≤ n); [|lia].
      apply Hmax, list_elem_of_join. eauto.
  - intros (mask & _ & Hsat). by exists (mask_assignment mask).
Qed.

(** ** The three engines agree where [dp_solver] is sound *)

(** X4: on a formula with nonzero literals, no tautological clause and at
    least one literal, [brute_force_solver] and [dpll_solver] return the
    same verdict, which is [True] exactly when the formula is satisfiable,
    and every verdict of [dp_solver] is that verdict too. *)
Theorem engines_agree (formula : Formula) :
  nonzero_literals formula → tautology_free formula → mjoin formula ≠ [] →
  ∃ b, brute_force_solver formula = Ret b
       ∧ dpll_solver formula = Some (Ret b)
       ∧ (∀ expired b', dp_solver expired formula = Some (Ret b') → b' = b)
       ∧ (b = true ↔ satisfiable formula).
Proof.
  intros Hnz Hfree Hne.
  destruct (max_abs_spec formula Hne) as (n & Hn & Hpos & Hmax).
  destruct (search_masks_spec formula (seqZ 0 (1 ≪ n)) Hnz) as (b & Hbf & Hb).
  assert (b = true ↔ satisfiable formula) as Hsat.
  { rewrite Hb, (satisfiable_mask formula n), Z.shiftl_1_l by done.
    split; intros (mask & Hmask & Hm); exists mask; split; try done.
    - apply elem_of_seqZ in Hmask. lia.
    - apply elem_of_seqZ. lia. }
  destruct (dpll_solver_correct_size (S (formula_size formula)) formula)
    as (b2 & Hdpll & Hb2); [lia|done|].
  exists b. split_and!; [|..|done].
  - unfold brute_force_solver. by rewrite Hn.
  - rewrite Hdpll. do 2 f_equal. apply eq_true_iff_eq. by rewrite Hsat, Hb2.
  - intros expired b'. unfold dp_solver, dp_solver_run.
    destruct (resolve _ _ _ _ _) as [r|] eqn:Hr; [|done].
    intros [= Hb']. apply eq_true_iff_eq. rewrite Hsat.
    eapply resolve_correct; [|done..].
    intros sig Hsig. by apply not_elem_of_empty in Hsig.
Qed.

Lemma engines_agree_witness :
  ∃ b, brute_force_solver [[1; 2]; [-1; -2]; [1; -2]; [-1; 2]] = Ret b
       ∧ dpll_solver [[1; 2]; [-1; -2]; [1; -2]; [-1; 2]] = Some (Ret b)
       ∧ (∀ expired b',
            dp_solver expired [[1; 2]; [-1; -2]; [1; -2]; [-1; 2]]
            = Some (Ret b') → b' = b)
       ∧ (b = true ↔ satisfiable [[1; 2]; [-1; -2]; [1; -2]; [-1; 2]]).
Proof.
  apply (engines_agree [[1; 2]; [-1; -2]; [1; -2]; [-1; 2]]).
  - intros c Hc. apply (bool_decide_unpack _).
    revert c Hc. apply Forall_forall. apply (bool_decide_unpack _). by vm_compute.
  - intros c Hc. revert c Hc. apply Forall_forall.
    apply (bool_decide_unpack _). by vm_compute.
  - done.
Defined.

(** ** The parser *)

Section ParserFacts.
Variable int : pystr → result Z.

Lemma read_lits_nonzero toks lits lits' :
  0 ∉ lits → read_lits int toks lits = Ret lits' → 0 ∉ lits'.
Proof.
  revert lits. induction toks as [|tok toks IH]; intros lits Hnz; simpl.
  - by intros [= <-].
  - destruct (int tok) as [v|e]; simpl; [|done].
    case_bool_decide as Hv; [by intros [= <-]|].
    apply IH. rewrite elem_of_app, list_elem_of_singleton. intros [?|?]; auto.
Qed.

Lemma well_read_snoc st lits :
  well_read st → lits ≠ [] → 0 ∉ lits →
  well_read (ParseState (ps_formula st ++ [lits]) (ps_n_vars st) (ps_n_clauses st)).
Proof.
  intros [Hempty Hnz] Hne H0. split; simpl.
  - rewrite elem_of_app, list_elem_of_singleton. intros [?|?]; auto.
  - intros c [Hc| ->%list_elem_of_singleton]%elem_of_app; [by apply Hnz|done].
Qed.

Lemma parse_line_well_read st raw f :
  well_read st → parse_line int st raw = Ret f → well_read (flow_state f).
Proof.
  intros Hst. unfold parse_line.
  destruct (_ || _); [by intros [= <-]|].
  destruct (startswith _ _); [by intros [= <-]|].
  destruct (startswith _ _).
  { destruct (index _ 2) as [a|]; simpl; [|done].
    destruct (int a) as [n|]; simpl; [|done].
    destruct (index _ 3) as [b|]; simpl; [|done].
    destruct (int b) as [m|]; simpl; [|done].
    by intros [= <-]. }
  cbv zeta. destruct (_ && _); [by intros [= <-]|].
  destruct (read_lits _ _ _) as [lits|] eqn:Hlits; simpl; [|done].
  apply read_lits_nonzero in Hlits; [|apply not_elem_of_nil].
  case_bool_decide; intros [= <-]; [done|]. by apply well_read_snoc.
Qed.

Lemma parse_lines_well_read st lines st' :
  well_read st → parse_lines int st lines = Ret st' → well_read st'.
Proof.
  revert st. induction lines as [|raw lines IH]; intros st Hst; simpl.
  - by intros [= <-].
  - destruct (parse_line int st raw) as [f|] eqn:Hf; simpl; [|done].
    apply parse_line_well_read in Hf; [|done].
    destruct f as [st1|st1]; [by apply IH|by intros [= <-]].
Qed.

Lemma parse_cnf_file_Ret lines formula n m :
  parse_cnf_file int lines = Ret (formula, n, m) →
  ∃ st, parse_lines int (ParseState [] None None) lines = Ret st
        ∧ ps_formula st = formula
        ∧ ps_n_vars st = Some n ∧ ps_n_clauses st = Some m.
Proof.
  unfold parse_cnf_file.
  destruct (parse_lines _ _ _) as [st|]; simpl; [|done].
  destruct (ps_n_vars st) eqn:Hn, (ps_n_clauses st) eqn:Hm; try done.
  intros [= <- <- <-]. by exists st.
Qed.

Lemma parse_cnf_file_well_read lines formula n m :
  parse_cnf_file int lines = Ret (formula, n, m) →
  ([] ∉ formula) ∧ nonzero_literals formula.
Proof.
  intros (st & Hst & <- & _)%parse_cnf_file_Ret.
  eapply parse_lines_well_read; [|done]. split; simpl.
  - apply not_elem_of_nil.
  - intros c Hc. by apply elem_of_nil in Hc.
Qed.

(** *** The header *)

Lemma parse_line_no_header st raw f :
  startswith (strip raw) (text "p cnf") = false →
  parse_line int st raw = Ret f →
  ps_n_vars (flow_state f) = ps_n_vars st.
Proof.
  intros Hhead. unfold parse_line. rewrite Hhead.
  destruct (_ || _); [intros; by simplify_eq/=|].
  destruct (startswith (strip raw) (text "%")); [intros; by simplify_eq/=|].
  cbv zeta. destruct (_ && _); [intros; by simplify_eq/=|].
  destruct (read_lits _ _ _) as [lits|]; simpl; [|done].
  case_bool_decide; intros; by simplify_eq/=.
Qed.

Lemma parse_lines_no_header st lines st' :
  Forall (λ raw, startswith (strip raw) (text "p cnf") = false) lines →
  parse_lines int st lines = Ret st' → ps_n_vars st' = ps_n_vars st.
Proof.
  intros Hall. revert st.
  induction Hall as [|raw lines Hraw Hall IH]; intros st; simpl.
  - by intros [= <-].
  - destruct (parse_line int st raw) as [f|] eqn:Hf; simpl; [|done].
    apply parse_line_no_header in Hf; [|done].
    destruct f as [st1|st1]; simpl in Hf.
    + intros Hst'%IH. congruence.
    + intros [= <-]. done.
Qed.

(** *** Lines that end or do not touch the reading *)

Lemma startswith_percent s :
  startswith s (text "%") = true →
  s ≠ [] ∧ startswith s (text "c") = false.
Proof.
  destruct s as [|c s]; [done|]. unfold text. simpl. rewrite !andb_true_r.
  intros ->%bool_decide_eq_true. done.
Qed.

Lemma parse_line_terminator st raw :
  startswith (strip raw) (text "%") = true →
  parse_line int st raw = Ret (Stop st).
Proof.
  intros Hpct. unfold parse_line.
  destruct (startswith_percent _ Hpct) as [Hne ->].
  by rewrite bool_decide_eq_false_2, Hpct by done.
Qed.

Lemma parse_line_inert st raw :
  strip raw = [] ∨ startswith (strip raw) (text "c") = true →
  parse_line int st raw = Ret (Next st).
Proof.
  intros Hraw. unfold parse_line.
  destruct Hraw as [->| ->]; [done|]. by rewrite orb_true_r.
Qed.

Lemma parse_lines_terminator st before raw after :
  startswith (strip raw) (text "%") = true →
  parse_lines int st (before ++ raw :: after) = parse_lines int st before.
Proof.
  intros Hpct. revert st. induction before as [|l before IH]; intros st; simpl.
  - by rewrite parse_line_terminator.
  - destruct (parse_line int st l) as [[st1|st1]|]; simpl; auto.
Qed.

Lemma parse_lines_inert st before raw after :
  strip raw = [] ∨ startswith (strip raw) (text "c") = true →
  parse_lines int st (before ++ raw :: after)
  = parse_lines int st (before ++ after).
Proof.
  intros Hraw. revert st. induction before as [|l before IH]; intros st; simpl.
  - by rewrite parse_line_inert.
  - destruct (parse_line int st l) as [[st1|st1]|]; simpl; auto.
Qed.

(** X7: the formula that [parse_cnf_file] returns has no empty clause and
    no literal [0], whatever the file holds. *)
Theorem parse_cnf_file_invariant (lines : list pystr)
    (formula : Formula) (n m : Z) :
  parse_cnf_file int lines = Ret (formula, n, m) →
  ([] ∉ formula) ∧ nonzero_literals formula.
Proof.
  intros Hparse. split.
  - by apply parse_cnf_file_well_read in Hparse as [? _].
  - by apply parse_cnf_file_well_read in Hparse as [_ ?].
Qed.

(** X8: a file without a line that starts (once stripped) with [p cnf] is
    never parsed: [parse_cnf_file] raises. *)
Theorem parse_cnf_file_needs_header (lines : list pystr) :
  Forall (λ raw, startswith (strip raw) (text "p cnf") = false) lines →
  ∃ e, parse_cnf_file int lines = Raise e.
Proof.
  intros Hall. unfold parse_cnf_file.
  destruct (parse_lines _ _ _) as [st|e] eqn:Hst; simpl; [|eauto].
  apply parse_lines_no_header in Hst; [|done]. simpl in Hst.
  rewrite Hst. eauto.
Qed.

(** X9: a line that starts (once stripped) with [%] ends the reading: the
    lines after it are not looked at, whatever they hold. *)
Theorem parse_cnf_file_terminator (before after : list pystr) (raw : pystr) :
  startswith (strip raw) (text "%") = true →
  parse_cnf_file int (before ++ raw :: after) = parse_cnf_file int before.
Proof.
  intros Hpct. unfold parse_cnf_file. by rewrite parse_lines_terminator.
Qed.

(** X10: a blank line or a line that starts (once stripped) with [c] can
    be removed from the file without changing what the parser returns. *)
Theorem parse_cnf_file_comment (before after : list pystr) (raw : pystr) :
  strip raw = [] ∨ startswith (strip raw) (text "c") = true →
  parse_cnf_file int (before ++ raw :: after)
  = parse_cnf_file int (before ++ after).
Proof.
  intros Hraw. unfold parse_cnf_file. by rewrite parse_lines_inert.
Qed.
End ParserFacts.

Lemma parse_cnf_file_invariant_witness :
  ([] ∉ [[1; -2]; [2; 3]; [-1]]) ∧ nonzero_literals [[1; -2]; [2; 3]; [-1]].
Proof.
  apply (parse_cnf_file_invariant py_int
           (text <$> ["c sample"; "p cnf 3 3"; " 1 -2 0 "; ""; "2 3 0 x";
                      "-1 % tail"; "0"; "%"; "junk"]%string)
           [[1; -2]; [2; 3]; [-1]] 3 3).
  by vm_compute.
Defined.

Lemma parse_cnf_file_needs_header_witness :
  ∃ e, parse_cnf_file py_int (text <$> ["c no header"; "1 2 0"]%string) = Raise e.
Proof.
  apply (parse_cnf_file_needs_header py_int).
  repeat constructor.
Defined.

Lemma parse_cnf_file_terminator_witness :
  parse_cnf_file py_int
    ((text <$> ["p cnf 2 1"; "1 2 0"]%string) ++ text " % end" :: [text "x y z"])
  = parse_cnf_file py_int (text <$> ["p cnf 2 1"; "1 2 0"]%string).
Proof.
  apply (parse_cnf_file_terminator py_int). reflexivity.
Defined.

Lemma parse_cnf_file_comment_witness :
  parse_cnf_file py_int
    ((text <$> ["p cnf 2 1"]%string) ++ text "  comment" :: [text "1 2 0"])
  = parse_cnf_file py_int ((text <$> ["p cnf 2 1"]%string) ++ [text "1 2 0"]).
Proof.
  apply (parse_cnf_file_comment py_int). right. reflexivity.
Defined.

(** ** The executor *)

(** X12: [run_with_timeout] hands on a result exactly when the solver
    returned it and the child finished in time; a call that raises
    (whatever the exception), that exits, that does not return or that is
    late gives [{'timeout': True}]. *)
Theorem run_with_timeout_result (late : bool) (call : option (result bool))
    (res : bool) :
  run_with_timeout late call = InfoResult res
  ↔ late = false ∧ call = Some (Ret res).
Proof.
  unfold run_with_timeout, _worker. split.
  - destruct call as [[b|e]|]; [|destruct e|]; destruct late; simpl;
      intros; by simplify_eq.
  - intros [-> ->]. done.
Qed.

(** ** A parsed file through the engines *)

Lemma brute_force_dpll_agree (formula : Formula) :
  nonzero_literals formula → mjoin formula ≠ [] →
  ∃ b, brute_force_solver formula = Ret b
       ∧ dpll_solver formula = Some (Ret b)
       ∧ (b = true ↔ satisfiable formula).
Proof.
  intros Hnz Hne.
  destruct (max_abs_spec formula Hne) as (n & Hn & Hpos & Hmax).
  destruct (search_masks_spec formula (seqZ 0 (1 ≪ n)) Hnz) as (b & Hbf & Hb).
  assert (b = true ↔ satisfiable formula) as Hsat.
  { rewrite Hb, (satisfiable_mask formula n), Z.shiftl_1_l by done.
    split; intros (mask & Hmask & Hm); exists mask; split; try done.
    - apply elem_of_seqZ in Hmask. lia.
    - apply elem_of_seqZ. lia. }
  destruct (dpll_solver_correct_size (S (formula_size formula)) formula)
    as (b2 & Hdpll & Hb2); [lia|done|].
  exists b. split_and!; [|..|done].
  - unfold brute_force_solver. by rewrite Hn.
  - rewrite Hdpll. do 2 f_equal. apply eq_true_iff_eq. by rewrite Hsat, Hb2.
Qed.

(** X16: on every formula with nonzero literals that holds a literal,
    tautological clauses or not, [brute_force_solver] and [dpll_solver]
    return the same verdict, [True] exactly when some assignment satisfies
    the formula. *)
Theorem brute_force_dpll_decide (formula : Formula) :
  nonzero_literals formula → mjoin formula ≠ [] →
  ∃ b, brute_force_solver formula = Ret b
       ∧ dpll_solver formula = Some (Ret b)
       ∧ (b = true ↔ satisfiable formula).
Proof. intros Hnz Hne. by apply brute_force_dpll_agree. Qed.

Lemma brute_force_dpll_decide_witness :
  ∃ b, brute_force_solver [[1; -1]; [2]; [-2; 1]] = Ret b
       ∧ dpll_solver [[1; -1]; [2]; [-2; 1]] = Some (Ret b)
       ∧ (b = true ↔ satisfiable [[1; -1]; [2]; [-2; 1]]).
Proof.
  apply (brute_force_dpll_decide [[1; -1]; [2]; [-2; 1]]).
  - intros c Hc. apply (bool_decide_unpack _).
    revert c Hc. apply Forall_forall. apply (bool_decide_unpack _). by vm_compute.
  - done.
Defined.

(** X11: for a file that [parse_cnf_file] accepts with at least one clause
    and a declared number of variables within [BF_THRESHOLD], the lines
    that [main] prints for Brute-Force and for DPLL carry the same
    verdict, SAT exactly when the parsed formula is satisfiable, provided
    neither child is late. *)
Theorem parsed_file_cross_check (int : pystr → result Z) (env : environment)
    (expired : Z → bool) (late : solver_name → Formula → bool)
    (lines : list pystr) (formula : Formula) (n m : Z) :
  parse_cnf_file int lines = Ret (formula, n, m) →
  formula ≠ [] → n ≤ BF_THRESHOLD →
  late BruteForce formula = false → late DPLL formula = false →
  ∃ sat, run_solver env expired late formula n BruteForce = Verdict BruteForce sat
         ∧ run_solver env expired late formula n DPLL = Verdict DPLL sat
         ∧ (sat = true ↔ satisfiable formula).
Proof.
  intros [Hempty Hnz]%parse_cnf_file_well_read Hne Hn Hlate1 Hlate2.
  assert (mjoin formula ≠ []) as Hlits.
  { destruct formula as [|[|l c] formula]; [done| |done].
    destruct Hempty. left. }
  destruct (brute_force_dpll_agree formula Hnz Hlits) as (b & Hbf & Hdpll & Hb).
  exists b. split_and!; [| |done].
  - unfold run_solver. rewrite (bool_decide_eq_false_2 (n > BF_THRESHOLD)) by lia.
    rewrite andb_false_r, Hlate1. unfold solver. by rewrite Hbf.
  - unfold run_solver. rewrite (bool_decide_eq_false_2 (DPLL = BruteForce)) by done.
    rewrite andb_false_l, Hlate2. unfold solver. by rewrite Hdpll.
Qed.

Lemma parsed_file_cross_check_witness :
  ∃ sat, run_solver (Environment false (λ _, true)) in_time (λ _ _, false)
           [[1; -2]; [2]] 2 BruteForce = Verdict BruteForce sat
         ∧ run_solver (Environment false (λ _, true)) in_time (λ _ _, false)
             [[1; -2]; [2]] 2 DPLL = Verdict DPLL sat
         ∧ (sat = true ↔ satisfiable [[1; -2]; [2]]).
Proof.
  apply (parsed_file_cross_check py_int _ _ _
           (text <$> ["p cnf 2 2"; "1 -2 0"; "2 0"]%string) [[1; -2]; [2]] 2 2).
  - by vm_compute.
  - done.
  - by vm_compute.
  - done.
  - done.
Defined.

(** ** More on [simplify] *)

Lemma omap_omap {A B C} (f : A → option B) (g : B → option C) (l : list A) :
  omap g (omap f l) = omap (λ x, f x ≫= g) l.
Proof.
  induction l as [|x l IH]; [done|]. csimpl.
  destruct (f x) as [y|]; csimpl; [|done].
  destruct (g y); by rewrite IH.
Qed.

Lemma clause_image_filter lit c :
  lit ∉ c → clause_image lit c = Some (filter (λ l, l ≠ - lit) c).
Proof.
  intros Hlit. unfold clause_image. rewrite decide_False by done.
  case_decide as Hn; [done|]. f_equal. symmetry.
  apply filter_all, Forall_forall. by intros l Hl ->.
Qed.

Lemma clause_image_None lit c : lit ∈ c → clause_image lit c = None.
Proof. intros Hlit. unfold clause_image. by rewrite decide_True. Qed.

Lemma clause_image_comm a b c :
  a ≠ - b →
  clause_image a c ≫= clause_image b = clause_image b c ≫= clause_image a.
Proof.
  intros Hab. assert (b ≠ - a) as Hba by lia.
  destruct (decide (a ∈ c)) as [Ha|Ha], (decide (b ∈ c)) as [Hb|Hb].
  - by rewrite (clause_image_None a c), (clause_image_None b c).
  - rewrite (clause_image_filter b c Hb), (clause_image_None a c Ha). simpl.
    symmetry. apply clause_image_None. by apply list_elem_of_filter.
  - rewrite (clause_image_filter a c Ha), (clause_image_None b c Hb). simpl.
    apply clause_image_None. by apply list_elem_of_filter.
  - rewrite (clause_image_filter a c Ha), (clause_image_filter b c Hb). simpl.
    rewrite !clause_image_filter
      by (rewrite list_elem_of_filter; tauto).
    f_equal. rewrite !list_filter_filter. apply list_filter_iff. intros l. tauto.
Qed.

(** X14: simplifications by two literals that are not each other's
    negation commute. *)
Theorem simplify_comm (F : Formula) (a b : Z) :
  a ≠ - b → simplify (simplify F a) b = simplify (simplify F b) a.
Proof.
  intros Hab. rewrite !simplify_omap, !omap_omap.
  induction F as [|c F IH]; [done|]. csimpl.
  by rewrite (clause_image_comm a b c), IH.
Qed.

Lemma simplify_comm_witness :
  simplify (simplify [[1; 2]; [-1; 3]; [-2; -3]; [3]] 1) (-3)
  = simplify (simplify [[1; 2]; [-1; 3]; [-2; -3]; [3]] (-3)) 1.
Proof. apply (simplify_comm [[1; 2]; [-1; 3]; [-2; -3]; [3]] 1 (-3)). lia. Defined.

(** Without the hypothesis the two orders differ. *)
Example simplify_comm_needs_hypothesis :
  simplify (simplify [[1]] 1) (-1) ≠ simplify (simplify [[1]] (-1)) 1.
Proof. by vm_compute. Qed.

(** ** More on [dp_solver] *)

Lemma resolve_steps_bound expired fuel fm seen steps r :
  all_outgrown seen fm →
  resolve expired fuel fm seen steps = Some r →
  run_steps r ≤ steps + Z.of_nat (size (variables fm)) + 1.
Proof.
  revert fm seen steps.
  induction fuel as [|fuel IH]; intros fm seen steps Hinv; [done|].
  pose proof (all_outgrown_fresh _ _ Hinv) as Hfresh.
  cbn [resolve].
  destruct (expired steps); [intros [= <-]; simpl; lia|].
  case_bool_decide; [intros [= <-]; simpl; lia|].
  rewrite (bool_decide_eq_false_2 (_ ∈ seen)) by done.
  case_bool_decide as Hnil; [intros [= <-]; simpl; lia|].
  destruct (existsb _ fm) eqn:Hex; [intros [= <-]; simpl; lia|].
  destruct fm as [|[|l0 c0] fm']; [done|intros [= <-]; simpl; lia|].
  cbv zeta. intros Hr%IH; [|by apply all_outgrown_next].
  assert (size (variables (next_formula (Z.abs l0) ((l0 :: c0) :: fm')))
          < size (variables ((l0 :: c0) :: fm')))%nat as Hless; [|lia].
  apply subset_size. eapply strict_trans_r; [apply variables_next_formula|].
  apply subset_difference_elem_of, variables_head.
Qed.

(** X13: a run of [dp_solver] makes at most one call of [resolve] more
    than the formula has variables, whatever the clock. *)
Theorem dp_solver_steps_bound (expired : Z → bool) (formula : Formula) :
  ∃ r, dp_solver_run expired formula = Some r
       ∧ 0 ≤ run_steps r ≤ Z.of_nat (size (variables formula)) + 1.
Proof.
  destruct (dp_solver_run_total expired formula) as [r Hr]. exists r.
  split; [done|]. unfold dp_solver_run in Hr.
  assert (all_outgrown ∅ formula) as Hinv.
  { intros sig Hsig. by apply not_elem_of_empty in Hsig. }
  split.
  - pose proof (resolve_invariant _ _ _ _ _ _ Hinv Hr) as (_ & _ & Hcount).
    unfold signatures_computed in Hcount. rewrite size_empty in Hcount.
    destruct (run_exit r) eqn:Hexit; lia.
  - apply resolve_steps_bound in Hr; [lia|done].
Qed.

Lemma resolve_true_sound expired fuel fm seen steps r :
  all_outgrown seen fm → nonzero_literals fm →
  resolve expired fuel fm seen steps = Some r →
  run_exit r = ExitEmptyFormula → satisfiable fm.
Proof.
  revert fm seen steps.
  induction fuel as [|fuel IH]; intros fm seen steps Hinv Hnz; [done|].
  pose proof (all_outgrown_fresh _ _ Hinv) as Hfresh.
  cbn [resolve].
  destruct (expired steps); [by intros [= <-]|].
  case_bool_decide; [by intros [= <-]|].
  rewrite (bool_decide_eq_false_2 (_ ∈ seen)) by done.
  case_bool_decide as Hnil.
  { intros _ _. exists (λ _, true).
    intros c Hc. rewrite Hnil in Hc. by apply elem_of_nil in Hc. }
  destruct (existsb _ fm) eqn:Hex; [by intros [= <-]|].
  destruct fm as [|[|l0 c0] fm']; [done|by intros [= <-]|].
  cbv zeta. intros Hr Hexit.
  assert (l0 ≠ 0) as Hl0 by (intros ->; apply (Hnz (0 :: c0)); left).
  rewrite next_formula_eliminate in Hr by lia.
  assert (satisfiable (eliminate (Z.abs l0) ((l0 :: c0) :: fm'))) as [a Ha].
  { eapply IH; [| |done..].
    - rewrite <-next_formula_eliminate by lia. by apply all_outgrown_next.
    - by apply nonzero_literals_eliminate. }
  destruct (eliminate_complete a (Z.abs l0) ((l0 :: c0) :: fm')) as [Hs|Hs];
    [lia|done..| |].
  - by exists (assign a (Z.abs l0)).
  - by exists (assign a (- Z.abs l0)).
Qed.

(** X15: on a formula with nonzero literals, tautological clauses or not,
    [dp_solver] returns [True] only if the formula is satisfiable: the
    verdict that can be wrong is [False]. *)
Theorem dp_solver_true_sound (expired : Z → bool) (formula : Formula) :
  nonzero_literals formula →
  dp_solver expired formula = Some (Ret true) → satisfiable formula.
Proof.
  intros Hnz. unfold dp_solver, dp_solver_run.
  destruct (resolve _ _ _ _ _) as [r|] eqn:Hr; [|done].
  intros [= Hout]. eapply resolve_true_sound; [|done..|].
  - intros sig Hsig. by apply not_elem_of_empty in Hsig.
  - by destruct (run_exit r).
Qed.

Lemma dp_solver_true_sound_witness : satisfiable [[1; -1; 2]; [-2; 3]].
Proof.
  apply (dp_solver_true_sound in_time [[1; -1; 2]; [-2; 3]]).
  - intros c Hc. apply (bool_decide_unpack _).
    revert c Hc. apply Forall_forall. apply (bool_decide_unpack _). by vm_compute.
  - by vm_compute.
Defined.

(** ** A formula that holds the empty clause *)

Lemma empty_clause_simplify formula l : [] ∈ formula → [] ∈ simplify formula l.
Proof.
  intros Hin. apply elem_of_simplify. exists []. split; [done|].
  apply clause_image_id; apply not_elem_of_nil.
Qed.

Lemma empty_clause_propagate_units us formula :
  [] ∈ formula → [] ∈ propagate_units us formula.
Proof.
  revert formula. induction us as [|u us IH]; intros formula Hin; [done|].
  simpl. by apply IH, empty_clause_simplify.
Qed.

Lemma empty_clause_unit_loop fuel formula F1 :
  [] ∈ formula → unit_loop fuel formula = Some F1 → [] ∈ F1.
Proof.
  revert formula. induction fuel as [|fuel IH]; intros formula Hin; [done|].
  simpl. case_bool_decide; [by intros [= <-]|].
  by apply IH, empty_clause_propagate_units.
Qed.

Lemma empty_clause_eliminate_pures formula :
  [] ∈ formula → [] ∈ eliminate_pures formula.
Proof.
  intros Hin. rewrite eliminate_pures_filter. apply list_elem_of_filter.
  split; [constructor|done].
Qed.

(** X17: a formula that holds the empty clause is refuted at once:
    [dpll_solver] returns [False] without a recursive call deciding
    anything, [dp_solver] returns [False] in its first call of [resolve]
    (unless the clock has already expired), and [brute_force_solver]
    returns [False] when the formula has nonzero literals and at least
    one of them. *)
Theorem empty_clause_refuted (formula : Formula) :
  [] ∈ formula →
  dpll_solver formula = Some (Ret false)
  ∧ (∀ rec F1, unit_loop (S (formula_size formula)) formula = Some F1 →
               dpll_decide rec (eliminate_pures F1) = Some (Ret false))
  ∧ (∀ expired, expired 0 = false →
                dp_solver_run expired formula
                = Some (DpRun ExitEmptyClause {[signature formula]} 1))
  ∧ (nonzero_literals formula → mjoin formula ≠ [] →
     brute_force_solver formula = Ret false).
Proof.
  intros Hin.
  assert (∀ rec F1, unit_loop (S (formula_size formula)) formula = Some F1 →
                    dpll_decide rec (eliminate_pures F1) = Some (Ret false))
    as Hdecide.
  { intros rec F1 HF1. apply empty_clause_unit_loop in HF1; [|done].
    apply empty_clause_eliminate_pures in HF1. unfold dpll_decide.
    rewrite bool_decide_eq_false_2.
    - apply existsb_empty_clause in HF1. by rewrite HF1.
    - intros Hnil. rewrite Hnil in HF1. by apply elem_of_nil in HF1. }
  split_and!.
  - destruct (dpll_solver_unfold formula) as (F1 & HF1 & ->). by apply Hdecide.
  - done.
  - intros expired Hclock. unfold dp_solver_run, dp_fuel. cbn [resolve].
    rewrite Hclock.
    rewrite bool_decide_eq_false_2 by (unfold MAX_DP_STEPS; lia).
    rewrite bool_decide_eq_false_2 by apply not_elem_of_empty.
    rewrite bool_decide_eq_false_2
      by (intros Hnil; rewrite Hnil in Hin; by apply elem_of_nil in Hin).
    apply existsb_empty_clause in Hin. rewrite Hin.
    do 2 f_equal. by rewrite union_empty_r_L.
  - intros Hnz Hne.
    destruct (max_abs_spec formula Hne) as (n & Hn & _).
    destruct (search_masks_spec formula (seqZ 0 (1 ≪ n)) Hnz) as (b & Hbf & Hb).
    unfold brute_force_solver. rewrite Hn. simpl. rewrite Hbf. f_equal.
    destruct b; [|done]. destruct Hb as [Hb _].
    destruct Hb as (mask & _ & Hsat); [done|].
    destruct (Hsat [] Hin) as (l & Hl & _). by apply elem_of_nil in Hl.
Qed.

Lemma empty_clause_refuted_witness :
  dpll_solver [[1; 2]; []; [-1]] = Some (Ret false)
  ∧ (∀ rec F1, unit_loop (S (formula_size [[1; 2]; []; [-1]]))
                 [[1; 2]; []; [-1]] = Some F1 →
               dpll_decide rec (eliminate_pures F1) = Some (Ret false))
  ∧ (∀ expired, expired 0 = false →
                dp_solver_run expired [[1; 2]; []; [-1]]
                = Some (DpRun ExitEmptyClause {[signature [[1; 2]; []; [-1]]]} 1))
  ∧ (nonzero_literals [[1; 2]; []; [-1]] → mjoin [[1; 2]; []; [-1]] ≠ [] →
     brute_force_solver [[1; 2]; []; [-1]] = Ret false).
Proof.
  apply (empty_clause_refuted [[1; 2]; []; [-1]]).
  apply (bool_decide_unpack _). by vm_compute.
Defined.
